(** * timber: asynchronous multi-destination logger (Go)

    A shallow embedding of the dispatch core of [timber.go]: the call-site
    name parser [parseFuncName], the fan-out resolver
    ([sendToLogger], [sendToLoggers]), the actor goroutine
    [asyncLumberJack] and the methods that talk to it
    ([AddLogger], [SetLogger], [Close], [doPrepareAndSend]).

    Conventions.
    - Go [int] and [Level] are [Z]; no arithmetic in this code can leave
      the 64-bit range, so no wrap-around is written out.
    - Go strings are byte strings: [string] of [ascii].
    - [map[string]Level] is [gmap string Z]; a nil map and an empty map
      answer every lookup the same way.
    - A run-time panic (index or slice bound out of range) is [None] in
      the [option] monad for pure code, and [Panics] for actor code.
    - Destinations and channels are effects: they are recorded in an
      output trace of [event]s. *)

From Stdlib Require Import ZArith Ascii String List Lia Bool.
From stdpp Require Import gmap strings list.

Open Scope Z_scope.

(** ** Go string primitives *)

Module GoString.

(** [len(s)] *)
Definition len (s : string) : Z := Z.of_nat (String.length s).

(** [s[i]]: panics when [i] is out of range. *)
Definition at_index (s : string) (i : Z) : option ascii :=
  if (0 <=? i) && (i <? len s) then String.get (Z.to_nat i) s else None.

(** [s[:hi]]: panics unless [0 <= hi <= len(s)]. *)
Definition slice_to (s : string) (hi : Z) : option string :=
  if (0 <=? hi) && (hi <=? len s) then Some (String.substring 0 (Z.to_nat hi) s)
  else None.

(** [strings.LastIndex(s, substr)]: the index of the last instance of
    [substr] in [s], or [-1] if [substr] is not present in [s]. *)
Fixpoint LastIndex (s substr : string) : Z :=
  match s with
  | EmptyString => if String.prefix substr EmptyString then 0 else -1
  | String _ s' =>
      let r := LastIndex s' substr in
      if 0 <=? r then r + 1
      else if String.prefix substr s then 0 else -1
  end.

(** Byte [c] occurs in [s]. *)
Definition has_byte (c : ascii) (s : string) : Prop :=
  exists i : nat, String.get i s = Some c.

(** The last occurrence of byte [c] in [s] is at position [p]. *)
Definition last_at (c : ascii) (s : string) (p : nat) : Prop :=
  String.get p s = Some c /\
  forall j : nat, (p < j)%nat -> String.get j s <> Some c.

End GoString.

Import GoString.

(** ** Call-site capturer *)

(** [parseFuncName]: splits [some.package/with/bits.Func] or
    [some.package/with/bits.(Type).Func] into the package path and, for a
    method, the method path. [None] is a run-time panic. *)
Definition parseFuncName (funcName : string) : option (string * string) :=
  let methodPath := EmptyString in
  let lastDot := LastIndex funcName "." in
  packagePath ← slice_to funcName lastDot;
  c ← at_index packagePath (len packagePath - 1);
  if Ascii.eqb c ")" then
    let methodPath := packagePath in
    let lastDot := LastIndex packagePath "." in
    packagePath ← slice_to packagePath lastDot;
    Some (packagePath, methodPath)
  else Some (packagePath, methodPath).

(** ** Data model *)

(** [type Level int] with the constants [NONE .. CRITICAL] ([iota]). *)
Abbreviation Level := Z (only parsing).

Definition NONE : Level := 0.
Definition FINEST : Level := 1.
Definition FINE : Level := 2.
Definition DEBUG : Level := 3.
Definition TRACE : Level := 4.
Definition INFO : Level := 5.
Definition WARNING : Level := 6.
Definition ERROR : Level := 7.
Definition CRITICAL : Level := 8.

(** [type LogRecord struct]. [Timestamp] is the instant as a number and
    [Extra] keeps its values as rendered text: the dispatch core never
    looks inside either. *)
Module LogRecord.
Record t : Type := mk {
  Level : Level;
  Timestamp : Z;
  SourceFile : string;
  SourceLine : Z;
  Message : string;
  FuncPath : string;
  MethodPath : string;
  PackagePath : string;
  HostName : string;
  Extra : gmap string string
}.
End LogRecord.

(** A [LogWriter] is an interface value; the embedding names each
    destination by a handle and records the calls of its two methods in
    the output trace. [RetSend v] is a send of [v] on a request's [Ret]
    channel. *)
Inductive event : Type :=
| LogWrite (w : nat) (msg : string)
| WriterClose (w : nat)
| RetSend (v : Z).

(** [type ConfigLogger struct]. [Formatter.Format] is a function of the
    record. Entries carry a non-nil writer and formatter. *)
Module ConfigLogger.
Record t : Type := mk {
  LogWriter : nat;
  Level : Level;
  Formatter : LogRecord.t -> string;
  Granulars : gmap string Z
}.

(** Stand-in for the zero value of the struct in requests whose [Cfg]
    field is left unset; the actor never reads it there. *)
Definition zero : t :=
  {| LogWriter := 0%nat; Level := 0; Formatter := fun _ => EmptyString;
     Granulars := ∅ |}.
End ConfigLogger.

Inductive timberAction : Type :=
| actionAdd
| actionSet
| actionModify
| actionQuit.

(** [type timberConfig struct]; the [Ret] channel is represented by the
    [RetSend] events and the reply component of [selectConfig]. *)
Record timberConfig : Type := mkConfig {
  Action : timberAction;
  Index : Z;
  Cfg : ConfigLogger.t
}.

(** ** Fan-out resolver *)

Definition sendToLogger (rec : LogRecord.t) (granLevel : Level)
    (formatted : string) (cLog : ConfigLogger.t) : list event * bool :=
  if (granLevel <=? LogRecord.Level rec) || (granLevel =? 0) then
    let formatted :=
      if String.eqb formatted EmptyString
      then ConfigLogger.Formatter cLog rec else formatted in
    ([LogWrite (ConfigLogger.LogWriter cLog) formatted], true)
  else ([], false).

(** The body of the [for _, cLog := range loggers] loop: each [Some]
    branch is an [if ok { ...; continue }]. *)
Definition sendToLoggers_body (rec : LogRecord.t) (formatted : string)
    (cLog : ConfigLogger.t) : list event :=
  match ConfigLogger.Granulars cLog !! LogRecord.FuncPath rec with
  | Some gLevel => fst (sendToLogger rec gLevel formatted cLog)
  | None =>
    match ConfigLogger.Granulars cLog !! LogRecord.MethodPath rec with
    | Some gLevel => fst (sendToLogger rec gLevel formatted cLog)
    | None =>
      match ConfigLogger.Granulars cLog !! LogRecord.PackagePath rec with
      | Some gLevel => fst (sendToLogger rec gLevel formatted cLog)
      | None => fst (sendToLogger rec (ConfigLogger.Level cLog) formatted cLog)
      end
    end
  end.

Fixpoint sendToLoggers_from (formatted : string)
    (loggers : list ConfigLogger.t) (rec : LogRecord.t) : list event :=
  match loggers with
  | [] => []
  | cLog :: rest =>
      sendToLoggers_body rec formatted cLog
      ++ sendToLoggers_from formatted rest rec
  end.

(** [formatted] starts as the empty string and is never assigned in
    this function ([sendToLogger] gets it by value). *)
Definition sendToLoggers (loggers : list ConfigLogger.t)
    (rec : LogRecord.t) : list event :=
  let formatted := EmptyString in
  sendToLoggers_from formatted loggers rec.

Definition closeAllWriters (cls : list ConfigLogger.t) : list event :=
  map (fun cLog => WriterClose (ConfigLogger.LogWriter cLog)) cls.

(** ** The Timber instance and its actor goroutine *)

Inductive goroutine : Type :=
| Looping   (* inside the first [for loopIt] of [asyncLumberJack] *)
| Exited.   (* [asyncLumberJack] has returned *)

(** The channels and latches of [type Timber struct], the locals of the
    [asyncLumberJack] goroutine started by [NewTimber], and the trace of
    effects so far.
    - [recordChan]: the buffer of the channel, oldest record first;
    - [closeLatch]: [true] once the [sync.Once] has run its function;
    - [blackHole]: [true] once the channel is closed;
    - [writerConfigChan] is unbuffered: a send on it is a rendezvous with
      the actor's [select], which is [selectConfig] below. *)
Record Timber : Type := mkTimber {
  recordChan : list LogRecord.t;
  closeLatch : bool;
  blackHole : bool;
  loggers : list ConfigLogger.t;
  actor : goroutine;
  out : list event
}.

(** [make(chan *LogRecord, 300)] *)
Definition recordChan_cap : nat := 300.

Definition set_recordChan (q : list LogRecord.t) (t : Timber) : Timber :=
  mkTimber q (closeLatch t) (blackHole t) (loggers t) (actor t) (out t).
Definition set_closeLatch (b : bool) (t : Timber) : Timber :=
  mkTimber (recordChan t) b (blackHole t) (loggers t) (actor t) (out t).
Definition set_blackHole (b : bool) (t : Timber) : Timber :=
  mkTimber (recordChan t) (closeLatch t) b (loggers t) (actor t) (out t).
Definition set_loggers (ls : list ConfigLogger.t) (t : Timber) : Timber :=
  mkTimber (recordChan t) (closeLatch t) (blackHole t) ls (actor t) (out t).
Definition set_actor (g : goroutine) (t : Timber) : Timber :=
  mkTimber (recordChan t) (closeLatch t) (blackHole t) (loggers t) g (out t).
Definition emit (es : list event) (t : Timber) : Timber :=
  mkTimber (recordChan t) (closeLatch t) (blackHole t) (loggers t) (actor t)
           (out t ++ es).

(** What a call or an actor step comes to. *)
Inductive outcome (A : Type) : Type :=
| Returns (a : A)   (* ran to completion *)
| Blocks            (* parked on a channel operation that is not ready *)
| Panics.           (* run-time panic in the actor: the process dies *)
Arguments Returns {A} a.
Arguments Blocks {A}.
Arguments Panics {A}.

Definition NewTimber : Timber :=
  {| recordChan := []; closeLatch := false; blackHole := false;
     loggers := []; actor := Looping; out := [] |}.

(** [loggers[i]] for a Go [int] index: [None] is the index-out-of-range
    panic. *)
Definition loggers_at (ls : list ConfigLogger.t) (i : Z)
    : option ConfigLogger.t :=
  if 0 <=? i then ls !! Z.to_nat i else None.

(** [cfg.Ret <- v] *)
Definition reply (v : Z) (t : Timber) : Timber * option Z :=
  (emit [RetSend v] t, Some v).

(** The second loop of [asyncLumberJack]: receive from [recordChan]
    until the [default] case is taken on an empty buffer. *)
Fixpoint drain (ls : list ConfigLogger.t) (q : list LogRecord.t)
    : list event :=
  match q with
  | [] => []
  | rec :: q' => sendToLoggers ls rec ++ drain ls q'
  end.

(** Everything [asyncLumberJack] does once [loopIt] is false: the drain
    loop, [closeAllWriters], then the deferred [cfg.Ret <- 0]. *)
Definition afterLoop (t : Timber) : Timber * option Z :=
  let t := set_recordChan [] (emit (drain (loggers t) (recordChan t)) t) in
  let t := emit (closeAllWriters (loggers t)) t in
  reply 0 (set_actor Exited t).

(** First loop, [case rec := <-t.recordChan]. *)
Definition selectRecord (t : Timber) : outcome Timber :=
  match actor t, recordChan t with
  | Looping, rec :: q =>
      Returns (emit (sendToLoggers (loggers t) rec) (set_recordChan q t))
  | _, _ => Blocks
  end.

(** First loop, [case cfg := <-t.writerConfigChan]. The second component
    is the value sent on [cfg.Ret], if any. After the actor has exited
    nobody receives on the channel and the sender stays parked. *)
Definition selectConfig (t : Timber) (cfg : timberConfig)
    : outcome (Timber * option Z) :=
  match actor t with
  | Exited => Blocks
  | Looping =>
    match Action cfg with
    | actionAdd =>
        let ls := loggers t ++ [Cfg cfg] in
        Returns (reply (Z.of_nat (length ls) - 1) (set_loggers ls t))
    | actionSet =>
        match loggers_at (loggers t) (Index cfg) with
        | None => Panics
        | Some old =>
            let t := emit [WriterClose (ConfigLogger.LogWriter old)] t in
            Returns
              (set_loggers (<[Z.to_nat (Index cfg) := Cfg cfg]> (loggers t)) t,
               None)
        end
    | actionModify => Returns (t, None)
    | actionQuit => Returns (afterLoop (set_blackHole true t))
    end
  end.

(** ** Methods of [*Timber] *)

Definition AddLogger (t : Timber) (logger : ConfigLogger.t)
    : outcome (Timber * Z) :=
  let tc := {| Action := actionAdd; Index := 0; Cfg := logger |} in
  match selectConfig t tc with
  | Returns (t', Some v) => Returns (t', v)
  | Returns (_, None) => Blocks
  | Blocks => Blocks
  | Panics => Panics
  end.

Definition SetLogger (t : Timber) (index : Z) (logger : ConfigLogger.t)
    : outcome Timber :=
  let tc := {| Action := actionSet; Index := index; Cfg := logger |} in
  match selectConfig t tc with
  | Returns (t', _) => Returns t'
  | Blocks => Blocks
  | Panics => Panics
  end.

(** [t.closeLatch.Do(func() {...})] *)
Definition Close (t : Timber) : outcome Timber :=
  if closeLatch t then Returns t
  else
    let tc := {| Action := actionQuit; Index := 0; Cfg := ConfigLogger.zero |} in
    match selectConfig t tc with
    | Returns (t', Some _) => Returns (set_closeLatch true t')
    | Returns (_, None) => Blocks
    | Blocks => Blocks
    | Panics => Panics
    end.

(** [doPrepareAndSend], with [rec] the record that [t.prepare] builds in
    the [default] branch. The [select] takes [case <-t.blackHole] exactly
    when that channel is closed; otherwise the [default] branch runs a
    plain send on [recordChan], which proceeds only while the buffer has
    room. The [select] and the send are taken as one step of the caller:
    no other goroutine runs between them. *)
Definition doPrepareAndSend (t : Timber) (rec : LogRecord.t)
    : outcome Timber :=
  if blackHole t then Returns t
  else if (length (recordChan t) <? recordChan_cap)%nat
       then Returns (set_recordChan (recordChan t ++ [rec]) t)
       else Blocks.

(** ** Schedules *)

(** One step of the whole system: a caller's method call, or the actor
    taking a record. *)
Inductive op : Type :=
| OpLog (rec : LogRecord.t)
| OpDeliver
| OpAdd (logger : ConfigLogger.t)
| OpSet (index : Z) (logger : ConfigLogger.t)
| OpClose.

(** The state after a step and the index an [AddLogger] returned. *)
Definition step (t : Timber) (o : op) : outcome (Timber * option Z) :=
  match o with
  | OpLog rec =>
      match doPrepareAndSend t rec with
      | Returns t' => Returns (t', None) | Blocks => Blocks | Panics => Panics
      end
  | OpDeliver =>
      match selectRecord t with
      | Returns t' => Returns (t', None) | Blocks => Blocks | Panics => Panics
      end
  | OpAdd logger =>
      match AddLogger t logger with
      | Returns (t', i) => Returns (t', Some i) | Blocks => Blocks | Panics => Panics
      end
  | OpSet index logger =>
      match SetLogger t index logger with
      | Returns t' => Returns (t', None) | Blocks => Blocks | Panics => Panics
      end
  | OpClose =>
      match Close t with
      | Returns t' => Returns (t', None) | Blocks => Blocks | Panics => Panics
      end
  end.

(** Runs a schedule and collects the indices returned by its
    [AddLogger] calls. A step that blocks leaves the state as it is (its
    goroutine stays parked); a panic ends the run. *)
Fixpoint run (t : Timber) (ops : list op) : outcome (Timber * list Z) :=
  match ops with
  | [] => Returns (t, [])
  | o :: ops' =>
      match step t o with
      | Panics => Panics
      | Blocks => run t ops'
      | Returns (t', r) =>
          match run t' ops' with
          | Returns (t'', rs) =>
              Returns (t'', match r with Some i => i :: rs | None => rs end)
          | Blocks => Blocks
          | Panics => Panics
          end
      end
  end.

(** ** Reading of the specification's fan-out rule *)

(** The effective threshold as the specification words it: the first hit
    among the function, method and package identities, in that order,
    otherwise the entry's default. *)
Definition effectiveThreshold (cLog : ConfigLogger.t) (rec : LogRecord.t)
    : Level :=
  let hits :=
    omap (fun key => ConfigLogger.Granulars cLog !! key)
         [LogRecord.FuncPath rec; LogRecord.MethodPath rec;
          LogRecord.PackagePath rec] in
  match hits with
  | gLevel :: _ => gLevel
  | [] => ConfigLogger.Level cLog
  end.

(** The delivery predicate as the specification words it. *)
Definition passes (rec : LogRecord.t) (T : Level) : Prop :=
  LogRecord.Level rec >= T \/ T = 0.

(** What one entry receives when a record is delivered to it. *)
Definition delivery (cLog : ConfigLogger.t) (rec : LogRecord.t) : event :=
  LogWrite (ConfigLogger.LogWriter cLog) (ConfigLogger.Formatter cLog rec).

(** ** Schedules of record traffic and [AddLogger] calls *)

Definition is_traffic_or_add (o : op) : bool :=
  match o with
  | OpLog _ | OpDeliver | OpAdd _ => true
  | OpSet _ _ | OpClose => false
  end.

Definition is_add (o : op) : bool :=
  match o with OpAdd _ => true | _ => false end.

Definition count_adds (ops : list op) : nat :=
  length (List.filter is_add ops).

(** ** Sample data *)

Module Sample.

Definition record (lvl : Level) : LogRecord.t :=
  {| LogRecord.Level := lvl;
     LogRecord.Timestamp := 0;
     LogRecord.SourceFile := "db/conn.go";
     LogRecord.SourceLine := 42;
     LogRecord.Message := "query";
     LogRecord.FuncPath := "app/db.(*Conn).Query";
     LogRecord.MethodPath := "app/db.(*Conn)";
     LogRecord.PackagePath := "app/db";
     LogRecord.HostName := "host";
     LogRecord.Extra := ∅ |}.

(** A destination at default threshold [WARNING], no overrides. *)
Definition console : ConfigLogger.t :=
  {| ConfigLogger.LogWriter := 1%nat;
     ConfigLogger.Level := WARNING;
     ConfigLogger.Formatter := LogRecord.Message;
     ConfigLogger.Granulars := ∅ |}.

(** A destination whose overrides for the function, the method and the
    package of [record] disagree with each other and with its default. *)
Definition file : ConfigLogger.t :=
  {| ConfigLogger.LogWriter := 2%nat;
     ConfigLogger.Level := NONE;
     ConfigLogger.Formatter := LogRecord.FuncPath;
     ConfigLogger.Granulars :=
       {[ "app/db.(*Conn).Query"%string := ERROR;
          "app/db.(*Conn)"%string := FINEST;
          "app/db"%string := DEBUG ]} |}.

(** A running logger whose record queue is full. *)
Definition full : Timber :=
  emit [RetSend 0]
       (set_recordChan (repeat (record INFO) 300)
                       (set_loggers [console] NewTimber)).

(** A running logger with two destinations and two queued records. *)
Definition busy : Timber :=
  set_recordChan [record ERROR; record INFO]
                 (set_loggers [console; file] NewTimber).

End Sample.

(** ** Level names *)

(** [var LevelStrings] and [var LongLevelStrings]. *)
Definition LevelStrings : list string :=
  [""; "FNST"; "FINE"; "DEBG"; "TRAC"; "INFO"; "WARN"; "EROR"; "CRIT"]%string.

Definition LongLevelStrings : list string :=
  ["NONE"; "FINEST"; "FINE"; "DEBUG"; "TRACE"; "INFO"; "WARNING"; "ERROR";
   "CRITICAL"]%string.

(** The [for idx, str := range] loop of [GetLevel], from index [idx]
    on. *)
Fixpoint GetLevel_from (idx : Z) (names : list string) (lvlString : string)
    : Level :=
  match names with
  | [] => 0
  | str :: rest =>
      if String.eqb str lvlString then idx
      else GetLevel_from (idx + 1) rest lvlString
  end.

Definition GetLevel (lvlString : string) : Level :=
  GetLevel_from 0 LongLevelStrings lvlString.

(** ** Building a record *)

(** What the Go runtime answers inside [prepare]:
    - [Now]: [makeTimeLogglyCompat(time.Now())];
    - [Caller depth]: the file and line of [runtime.Caller(depth)] and
      the name of [runtime.FuncForPC(pc)], [None] when that is nil. *)
Record Runtime : Type := mkRuntime {
  Now : Z;
  Caller : Z -> string * Z * option string
}.

(** [DefaultFileDepth] *)
Definition DefaultFileDepth : Z := 3.

(** [prepare]. [Hostname] is the result of calling [t.Hostname] when
    that field is not nil. [None] is the panic of [parseFuncName]. *)
Definition prepare (rt : Runtime) (Hostname : option string) (lvl : Level)
    (extra : gmap string string) (msg : string) (depth : Z)
    : option LogRecord.t :=
  let '(file, line, me) := Caller rt depth in
  paths ← match me with
          | Some name =>
              pm ← parseFuncName name; Some (name, fst pm, snd pm)
          | None => Some ("_", "_", "_")%string
          end;
  let '(funcPath, packagePath, methodPath) := paths in
  let hostname := match Hostname with Some h => h | None => EmptyString end in
  Some {| LogRecord.Level := lvl;
          LogRecord.Timestamp := Now rt;
          LogRecord.SourceFile := file;
          LogRecord.SourceLine := line;
          LogRecord.Message := msg;
          LogRecord.FuncPath := funcPath;
          LogRecord.MethodPath := methodPath;
          LogRecord.PackagePath := packagePath;
          LogRecord.HostName := hostname;
          LogRecord.Extra := extra |}.

(** [doPrepareAndSend] with its own arguments: [t.prepare] runs in the
    [default] branch only, at [depth+2]; a panic there is the caller's. *)
Definition doPrepareAndSend_args (rt : Runtime) (Hostname : option string)
    (t : Timber) (lvl : Level) (extra : gmap string string) (msg : string)
    (depth : Z) : outcome Timber :=
  if blackHole t then Returns t
  else match prepare rt Hostname lvl extra msg (depth + 2) with
       | None => Panics
       | Some rec => doPrepareAndSend t rec
       end.

(** [prepareAndSend]: [emptyExtra] is a nil map. *)
Definition prepareAndSend (rt : Runtime) (Hostname : option string)
    (t : Timber) (lvl : Level) (msg : string) (depth : Z) : outcome Timber :=
  let emptyExtra : gmap string string := ∅ in
  doPrepareAndSend_args rt Hostname t lvl emptyExtra msg depth.

Definition prepareAndSendEx (rt : Runtime) (Hostname : option string)
    (t : Timber) (lvl : Level) (extra : gmap string string) (msg : string)
    (depth : Z) : outcome Timber :=
  doPrepareAndSend_args rt Hostname t lvl extra msg depth.

(** ** Facade methods, on the rendered message *)

(** [Log]/[Logf]; [Finest] .. [Info] are this at their level. *)
Definition Log (rt : Runtime) (Hostname : option string) (FileDepth : Z)
    (t : Timber) (lvl : Level) (msg : string) : outcome Timber :=
  prepareAndSend rt Hostname t lvl msg FileDepth.

(** [Warn]/[Error]/[Critical] at [lvl]: the second component is the
    text of [errors.New(msg)]. *)
Definition LogErr (rt : Runtime) (Hostname : option string) (FileDepth : Z)
    (t : Timber) (lvl : Level) (msg : string) : outcome (Timber * string) :=
  match prepareAndSend rt Hostname t lvl msg FileDepth with
  | Returns t' => Returns (t', msg)
  | Blocks => Blocks
  | Panics => Panics
  end.

Definition Warn rt Hostname FileDepth t msg :=
  LogErr rt Hostname FileDepth t WARNING msg.
Definition Error rt Hostname FileDepth t msg :=
  LogErr rt Hostname FileDepth t ERROR msg.
Definition Critical rt Hostname FileDepth t msg :=
  LogErr rt Hostname FileDepth t CRITICAL msg.

(** [Fatal]/[Fatalf]/[Fatalln] up to [os.Exit(1)]: the state in which
    the process exits. *)
Definition Fatal (rt : Runtime) (Hostname : option string) (FileDepth : Z)
    (t : Timber) (msg : string) : outcome Timber :=
  match prepareAndSend rt Hostname t CRITICAL msg FileDepth with
  | Returns t' => Close t'
  | Blocks => Blocks
  | Panics => Panics
  end.

(** [SetLevel] and [SetFormatter]: bodies are empty. *)
Definition SetLevel (t : Timber) (index : Z) (lvl : Level) : Timber := t.
Definition SetFormatter (t : Timber) (index : Z)
    (formatter : LogRecord.t -> string) : Timber := t.

(** ** Reading the output trace *)

(** The messages each destination was handed, in order. *)
Definition writes (es : list event) : list (nat * string) :=
  omap (fun e => match e with LogWrite w m => Some (w, m) | _ => None end) es.

(** The destinations closed, in order. *)
Definition closed (es : list event) : list nat :=
  omap (fun e => match e with WriterClose w => Some w | _ => None end) es.

(** The records a schedule submits, in order. *)
Definition logged (ops : list op) : list LogRecord.t :=
  omap (fun o => match o with OpLog rec => Some rec | _ => None end) ops.

(** The destinations a schedule installs, by [AddLogger] or
    [SetLogger], in order. *)
Definition installed (ops : list op) : list nat :=
  omap (fun o => match o with
                 | OpAdd c | OpSet _ c => Some (ConfigLogger.LogWriter c)
                 | _ => None
                 end) ops.

Definition is_traffic (o : op) : bool :=
  match o with OpLog _ | OpDeliver => true | _ => false end.

Definition is_close (o : op) : bool :=
  match o with OpClose => true | _ => false end.

(** The state in which a schedule ends, if it ends. *)
Definition final (r : outcome (Timber * list Z)) : option Timber :=
  match r with Returns (t, _) => Some t | _ => None end.

(** The state invariant of a logger made by [NewTimber]. *)
Definition consistent (t : Timber) : Prop :=
  (length (recordChan t) <= recordChan_cap)%nat /\
  (blackHole t = true <-> actor t = Exited) /\
  (closeLatch t = true <-> actor t = Exited) /\
  (actor t = Exited -> recordChan t = []).

(** ** Sample runtime *)

Module SampleRuntime.

(** A stack with a method frame at depth 5, a plain function at depth 6,
    a frame named without a dot at depth 7 and nothing resolvable
    elsewhere. *)
Definition rt : Runtime :=
  {| Now := 1700000000000000;
     Caller := fun depth =>
       if depth =? 5 then ("db/conn.go", 42, Some "app/db.(*Conn).Query")%string
       else if depth =? 6 then ("main.go", 10, Some "main.main")%string
       else if depth =? 7 then ("asm.s", 1, Some "nodot")%string
       else (EmptyString, 0, None) |}.

(** The state in which [Close] leaves [Sample.busy]. *)
Definition closed_busy : Timber :=
  match Close Sample.busy with
  | Returns t => t
  | _ => Sample.busy
  end.

End SampleRuntime.

(** The state after a first [Close] on a running logger [t]. *)
Definition closed_state (t : Timber) : Timber :=
  {| recordChan := [];
     closeLatch := true;
     blackHole := true;
     loggers := loggers t;
     actor := Exited;
     out := ((out t ++ flat_map (sendToLoggers (loggers t)) (recordChan t))
             ++ closeAllWriters (loggers t)) ++ [RetSend 0] |}.

(** * Properties *)

(** ** Strings *)

Section StringFacts.

Implicit Types (s a b : string) (c : ascii) (p j : nat).

Lemma get_lt_length s j x : String.get j s = Some x -> (j < String.length s)%nat.
Proof.
  revert j. induction s as [|h s IH]; intros [|j] H; simpl in *;
    try discriminate; try lia.
  apply IH in H. lia.
Qed.

Lemma substring_prefix_length s n :
  (n <= String.length s)%nat -> String.length (String.substring 0 n s) = n.
Proof.
  revert n. induction s as [|h s IH]; intros [|n] H; simpl in *;
    try reflexivity; try lia.
  rewrite IH; lia.
Qed.

Lemma substring_prefix_get s n j :
  (j < n)%nat -> String.get j (String.substring 0 n s) = String.get j s.
Proof.
  intros H. rewrite (substring_correct1 s 0 n j H). f_equal. lia.
Qed.

Lemma substring_append_left a b :
  String.substring 0 (String.length a) (a +:+ b) = a.
Proof.
  induction a as [|h a IH]; simpl.
  - destruct b; reflexivity.
  - now rewrite IH.
Qed.

Lemma length_append a b :
  String.length (a +:+ b) = (String.length a + String.length b)%nat.
Proof. induction a as [|h a IH]; simpl; [reflexivity | now rewrite IH]. Qed.

Lemma get_append_right a b j :
  String.get (String.length a + j) (a +:+ b) = String.get j b.
Proof. induction a as [|h a IH]; simpl; [reflexivity | exact IH]. Qed.


Lemma prefix_byte c s :
  String.prefix (String c EmptyString) s = true <-> String.get 0 s = Some c.
Proof.
  destruct s as [|h s]; simpl.
  - split; discriminate.
  - destruct (ascii_dec c h) as [->|Hne].
    + split; [reflexivity | now destruct s].
    + split; [discriminate | intros [= ->]; contradiction].
Qed.

(** [LastIndex] with a one-byte separator finds the last occurrence, or
    answers [-1] when there is none. *)
Lemma LastIndex_byte c s :
  (LastIndex s (String c EmptyString) = -1 /\ ~ has_byte c s) \/
  (exists p, LastIndex s (String c EmptyString) = Z.of_nat p /\ last_at c s p).
Proof.
  induction s as [|h s IH].
  - left. split; [reflexivity | intros [i Hi]; destruct i; discriminate].
  - cbn [LastIndex]. destruct IH as [[E Hno] | (p & E & Hget & Hlast)].
    + rewrite E. change (0 <=? -1) with false. cbv iota.
      destruct (String.prefix (String c EmptyString) (String h s)) eqn:Hp.
      * right. exists 0%nat. apply prefix_byte in Hp. split; [reflexivity|].
        split; [exact Hp|]. intros [|j] Hj Hc; [lia|].
        apply Hno. now exists j.
      * left. split; [reflexivity|]. intros [[|i] Hi].
        -- apply prefix_byte in Hi. congruence.
        -- apply Hno. now exists i.
    + rewrite E. right. exists (S p).
      destruct (0 <=? Z.of_nat p) eqn:Hle; [|lia].
      split; [lia|]. split; [exact Hget|].
      intros [|j] Hj; [lia|]. simpl. apply Hlast. lia.
Qed.

Lemma last_at_unique c s p j : last_at c s p -> last_at c s j -> p = j.
Proof.
  intros [Hp Lp] [Hj Lj].
  destruct (Nat.lt_trichotomy p j) as [H|[H|H]]; [|exact H|].
  - now apply Lp in H.
  - now apply Lj in H.
Qed.

Lemma LastIndex_last_at c s p :
  last_at c s p -> LastIndex s (String c EmptyString) = Z.of_nat p.
Proof.
  intros H. destruct (LastIndex_byte c s) as [[_ Hno] | (j & E & Hj)].
  - exfalso. apply Hno. exists p. apply H.
  - now rewrite (last_at_unique c s p j H Hj).
Qed.

Lemma LastIndex_absent c s :
  ~ has_byte c s -> LastIndex s (String c EmptyString) = -1.
Proof.
  intros H. destruct (LastIndex_byte c s) as [[E _] | (j & _ & Hj & _)].
  - exact E.
  - exfalso. apply H. now exists j.
Qed.

Lemma last_at_append c a b :
  ~ has_byte c b -> last_at c (a +:+ String c b) (String.length a).
Proof.
  intros Hno. split.
  - rewrite <- (Nat.add_0_r (String.length a)). now rewrite get_append_right.
  - intros j Hj Hc.
    replace j with (String.length a + S (j - String.length a - 1))%nat in Hc by lia.
    rewrite get_append_right in Hc. simpl in Hc. apply Hno.
    now exists (j - String.length a - 1)%nat.
Qed.

End StringFacts.

(** ** Call-site capturer *)

Section ParseFuncName.

Implicit Types (s pkg fn : string) (c : ascii).

Lemma slice_to_in_range s n :
  (n <= String.length s)%nat ->
  slice_to s (Z.of_nat n) = Some (String.substring 0 n s).
Proof.
  intros H. unfold slice_to, len.
  rewrite (proj2 (Z.leb_le 0 _)) by lia.
  rewrite (proj2 (Z.leb_le _ _)) by lia.
  simpl. now rewrite Nat2Z.id.
Qed.

Lemma slice_to_negative s : slice_to s (-1) = None.
Proof. reflexivity. Qed.

Lemma at_index_last s n :
  String.length s = S n -> at_index s (len s - 1) = String.get n s.
Proof.
  intros H. unfold at_index, len. rewrite H.
  rewrite (proj2 (Z.leb_le 0 _)) by lia.
  rewrite (proj2 (Z.ltb_lt _ _)) by lia.
  simpl andb. cbv iota. f_equal. lia.
Qed.

Lemma get_in_range s n :
  (n < String.length s)%nat -> exists c, String.get n s = Some c.
Proof.
  revert n. induction s as [|h s IH]; intros n H; simpl in *; [lia|].
  destruct n as [|n]; [now exists h|]. apply IH. lia.
Qed.

(** The parser on a name [pkg.fn] whose part after the last dot is
    [fn] and whose part before it ends in byte [c]. *)
Lemma parseFuncName_step pkg fn :
  ~ has_byte "." fn ->
  parseFuncName (pkg +:+ String "." fn) =
    (c ← at_index pkg (len pkg - 1);
     if Ascii.eqb c ")" then
       packagePath ← slice_to pkg (LastIndex pkg ".");
       Some (packagePath, pkg)
     else Some (pkg, EmptyString)).
Proof.
  intros Hfn. unfold parseFuncName.
  rewrite (LastIndex_last_at _ _ _ (last_at_append "." pkg fn Hfn)).
  rewrite slice_to_in_range by (rewrite length_append; lia).
  now rewrite substring_append_left.
Qed.

Lemma at_index_snoc s c :
  at_index (s +:+ String c EmptyString) (len (s +:+ String c EmptyString) - 1)
  = Some c.
Proof.
  rewrite (at_index_last _ (String.length s)).
  - rewrite <- (Nat.add_0_r (String.length s)). now rewrite get_append_right.
  - rewrite length_append. simpl. lia.
Qed.

End ParseFuncName.

(** C8. For a name [pkg.fn] whose last dot separates [pkg] (ending in
    some byte [c]) from [fn]: when [c] is not a closing parenthesis the
    parser returns the part before the last dot as the package path and
    the empty method path; when [c] is a closing parenthesis and [pkg] is
    itself [p.r] with its last dot before [r], it returns [pkg] as the
    method path and [p], the part before the last dot of [pkg], as the
    package path. *)
Theorem parseFuncName_splits (q : string) (c : ascii) (fn : string) :
  ~ has_byte "." fn ->
  let pkg := q +:+ String c EmptyString in
  (c <> ")"%char ->
     parseFuncName (pkg +:+ "." +:+ fn) = Some (pkg, EmptyString)) /\
  (c = ")"%char ->
     forall p r : string, pkg = p +:+ "." +:+ r -> ~ has_byte "." r ->
     parseFuncName (pkg +:+ "." +:+ fn) = Some (p, pkg)).
Proof.
  intros Hfn pkg. change ("." +:+ fn) with (String "." fn).
  rewrite (parseFuncName_step pkg fn Hfn). subst pkg.
  rewrite at_index_snoc. cbn [mbind option_bind].
  split.
  - intros Hc. destruct (Ascii.eqb_spec c ")"); [contradiction | reflexivity].
  - intros -> p r Hpkg Hr. rewrite Ascii.eqb_refl.
    change ("." +:+ r) with (String "." r) in Hpkg. rewrite Hpkg.
    rewrite (LastIndex_last_at _ _ _ (last_at_append "." p r Hr)).
    rewrite slice_to_in_range by (rewrite length_append; lia).
    now rewrite substring_append_left.
Qed.

Lemma parseFuncName_splits_witness :
  parseFuncName "some.package/with/bits.Func"
    = Some ("some.package/with/bits", EmptyString)%string /\
  parseFuncName "some.package/with/bits.(Type).Func"
    = Some ("some.package/with/bits", "some.package/with/bits.(Type)")%string.
Proof.
  assert (Hfn : ~ has_byte "." "Func").
  { intros [i Hi]. do 5 (destruct i as [|i]; [discriminate|]). discriminate. }
  assert (Hr : ~ has_byte "." "(Type)").
  { intros [i Hi]. do 7 (destruct i as [|i]; [discriminate|]). discriminate. }
  split.
  - apply (proj1 (parseFuncName_splits "some.package/with/bit" "s" "Func" Hfn)).
    discriminate.
  - exact (proj2 (parseFuncName_splits "some.package/with/bits.(Type" ")" "Func" Hfn)
             eq_refl "some.package/with/bits" "(Type)" eq_refl Hr).
Defined.

(** C9. The parser panics on every name without a dot (the first slice
    bound is [-1]), and also on [".Func"] and ["x()."], which do contain
    one. It returns exactly when the last dot is at a position [p >= 1]
    and, if the byte before it is a closing parenthesis, some earlier
    position holds a dot as well. *)
Theorem parseFuncName_returns_iff :
  (forall s : string,
     ~ has_byte "." s -> LastIndex s "." = -1 /\ parseFuncName s = None) /\
  (has_byte "." ".Func" /\ parseFuncName ".Func" = None) /\
  (has_byte "." "x()." /\ parseFuncName "x()." = None) /\
  (forall s : string,
     is_Some (parseFuncName s) <->
     exists p : nat,
       last_at "." s p /\ (1 <= p)%nat /\
       (String.get (p - 1) s = Some ")"%char ->
        exists q : nat, (q < p)%nat /\ String.get q s = Some "."%char)).
Proof.
  split; [|split; [|split]].
  - intros s Hno. pose proof (LastIndex_absent "." s Hno) as E.
    split; [exact E|]. unfold parseFuncName. now rewrite E.
  - split; [now exists 0%nat | reflexivity].
  - split; [now exists 3%nat | reflexivity].
  - intros s. unfold parseFuncName.
    destruct (LastIndex_byte "." s) as [[E Hno] | (p & E & Hp)]; rewrite E.
    { rewrite slice_to_negative. split.
      - intros [x Hx]. simpl in Hx. discriminate Hx.
      - intros (p & [Hp _] & _). exfalso. apply Hno. now exists p. }
    pose proof (get_lt_length _ _ _ (proj1 Hp)) as Hlt.
    rewrite slice_to_in_range by lia. cbn [mbind option_bind].
    destruct p as [|p].
    { replace (String.substring 0 0 s) with EmptyString
        by (destruct s; reflexivity).
      split.
      - intros [x Hx]. simpl in Hx. discriminate Hx.
      - intros (j & Hj & Hge & _).
        pose proof (last_at_unique _ _ _ _ Hp Hj). lia. }
    set (pre := String.substring 0 (S p) s).
    assert (Hlen : String.length pre = S p)
      by (apply substring_prefix_length; lia).
    rewrite (at_index_last pre p Hlen).
    replace (String.get p pre) with (String.get p s)
      by (unfold pre; now rewrite substring_prefix_get by lia).
    destruct (get_in_range s p ltac:(lia)) as [c Hc]. rewrite Hc.
    cbn [mbind option_bind].
    destruct (Ascii.eqb_spec c ")") as [->|Hne].
    + destruct (LastIndex_byte "." pre) as [[E' Hno'] | (q & E' & Hq)];
        rewrite E'.
      * rewrite slice_to_negative. split.
        -- intros [x Hx]. simpl in Hx. discriminate Hx.
        -- intros (j & Hj & _ & Hm).
           pose proof (last_at_unique _ _ _ _ Hp Hj) as <-.
           destruct Hm as (q & Hq & Hdot).
           { now replace (S p - 1)%nat with p by lia. }
           exfalso. apply Hno'. exists q. unfold pre.
           now rewrite substring_prefix_get.
      * pose proof (get_lt_length _ _ _ (proj1 Hq)) as Hq'.
        rewrite slice_to_in_range by lia. split; [|intros _; eexists; reflexivity].
        intros _. exists (S p). split; [exact Hp|]. split; [lia|].
        intros _. exists q. split; [lia|].
        destruct Hq as [Hq _]. unfold pre in Hq.
        now rewrite substring_prefix_get in Hq by lia.
    + split; [|intros _; eexists; reflexivity].
      intros _. exists (S p). split; [exact Hp|]. split; [lia|].
      replace (S p - 1)%nat with p by lia. rewrite Hc. intros [= ->].
      contradiction.
Qed.

(** ** Fan-out resolver *)

Section FanOut.

Implicit Types (rec : LogRecord.t) (cLog : ConfigLogger.t) (T : Z).

Lemma passes_test rec T :
  (T <=? LogRecord.Level rec) || (T =? 0) = true <-> passes rec T.
Proof.
  unfold passes. rewrite orb_true_iff, Z.leb_le, Z.eqb_eq. lia.
Qed.

Lemma sendToLogger_passes rec T cLog :
  passes rec T ->
  sendToLogger rec T EmptyString cLog = ([delivery cLog rec], true).
Proof.
  intros H. apply passes_test in H. unfold sendToLogger. now rewrite H.
Qed.

Lemma sendToLogger_fails rec T formatted cLog :
  ~ passes rec T -> sendToLogger rec T formatted cLog = ([], false).
Proof.
  intros H. unfold sendToLogger.
  destruct ((T <=? LogRecord.Level rec) || (T =? 0)) eqn:E; [|reflexivity].
  apply passes_test in E. contradiction.
Qed.

Lemma passes_dec rec T : {passes rec T} + {~ passes rec T}.
Proof.
  destruct ((T <=? LogRecord.Level rec) || (T =? 0)) eqn:E.
  - left. now apply passes_test.
  - right. intros H. apply passes_test in H. congruence.
Qed.

(** The loop body resolves the threshold as the specification words
    it, then applies [sendToLogger] once. *)
Lemma body_resolves rec formatted cLog :
  sendToLoggers_body rec formatted cLog =
  fst (sendToLogger rec (effectiveThreshold cLog rec) formatted cLog).
Proof.
  unfold sendToLoggers_body, effectiveThreshold. cbn [omap list_omap].
  destruct (ConfigLogger.Granulars cLog !! LogRecord.FuncPath rec);
    [reflexivity|].
  destruct (ConfigLogger.Granulars cLog !! LogRecord.MethodPath rec);
    [reflexivity|].
  destruct (ConfigLogger.Granulars cLog !! LogRecord.PackagePath rec);
    reflexivity.
Qed.

Lemma body_passes rec cLog :
  passes rec (effectiveThreshold cLog rec) ->
  sendToLoggers_body rec EmptyString cLog = [delivery cLog rec].
Proof.
  intros H. now rewrite body_resolves, sendToLogger_passes.
Qed.

Lemma body_fails rec cLog :
  ~ passes rec (effectiveThreshold cLog rec) ->
  sendToLoggers_body rec EmptyString cLog = [].
Proof.
  intros H. now rewrite body_resolves, sendToLogger_fails.
Qed.

Lemma sendToLoggers_cons cLog ls rec :
  sendToLoggers (cLog :: ls) rec =
  sendToLoggers_body rec EmptyString cLog ++ sendToLoggers ls rec.
Proof. reflexivity. Qed.

Lemma sendToLoggers_app ls1 ls2 rec :
  sendToLoggers (ls1 ++ ls2) rec =
  sendToLoggers ls1 rec ++ sendToLoggers ls2 rec.
Proof.
  induction ls1 as [|cLog ls1 IH]; [reflexivity|].
  rewrite <- app_comm_cons, !sendToLoggers_cons, IH. now rewrite app_assoc.
Qed.

Lemma elem_of_sendToLoggers ls rec (e : event) :
  e ∈ sendToLoggers ls rec <->
  exists cLog, cLog ∈ ls /\ passes rec (effectiveThreshold cLog rec) /\
               e = delivery cLog rec.
Proof.
  induction ls as [|cLog ls IH].
  - split; [intros H; inversion H | intros (c & H & _); inversion H].
  - rewrite sendToLoggers_cons, elem_of_app, IH. split.
    + intros [H | (c & Hc & Hp & He)].
      * destruct (passes_dec rec (effectiveThreshold cLog rec)) as [Hp|Hp].
        -- rewrite body_passes in H by exact Hp.
           apply list_elem_of_singleton in H.
           exists cLog. split; [left | now split].
        -- rewrite body_fails in H by exact Hp. inversion H.
      * exists c. split; [now right | now split].
    + intros (c & Hc & Hp & He). apply elem_of_cons in Hc as [-> | Hc].
      * left. rewrite body_passes by exact Hp. subst e. left.
      * right. now exists c.
Qed.

End FanOut.

(** C1. With [T] the effective threshold of an entry for a record, the
    entry's destination gets the record, formatted by the entry's own
    formatter, exactly when the record's level is at least [T] or [T] is
    the zero level; a zero threshold delivers whatever the level; the
    same holds entry by entry for a whole registry. *)
Theorem delivery_iff_passes (rec : LogRecord.t) (cLog : ConfigLogger.t) :
  let T := effectiveThreshold cLog rec in
  (passes rec T <->
     sendToLoggers_body rec EmptyString cLog = [delivery cLog rec]) /\
  (~ passes rec T <-> sendToLoggers_body rec EmptyString cLog = []) /\
  (T = NONE -> sendToLoggers_body rec EmptyString cLog = [delivery cLog rec]) /\
  (forall (T' : Level) (formatted : string),
     snd (sendToLogger rec T' formatted cLog) = true <-> passes rec T') /\
  (forall (ls : list ConfigLogger.t) (e : event),
     e ∈ sendToLoggers ls rec <->
     exists c, c ∈ ls /\ passes rec (effectiveThreshold c rec) /\
               e = delivery c rec).
Proof.
  intros T. split; [|split; [|split; [|split]]].
  - split; [apply body_passes|]. intros H.
    destruct (passes_dec rec T) as [Hp|Hp]; [exact Hp|].
    rewrite body_fails in H by exact Hp. discriminate.
  - split; [apply body_fails|]. intros H Hp.
    rewrite body_passes in H by exact Hp. discriminate.
  - intros H. apply body_passes. right. exact H.
  - intros T' formatted. unfold sendToLogger.
    destruct ((T' <=? LogRecord.Level rec) || (T' =? 0)) eqn:E; simpl.
    + split; [intros _; now apply passes_test | reflexivity].
    + split; [discriminate|]. intros H. apply passes_test in H. congruence.
  - intros ls e. apply elem_of_sendToLoggers.
Qed.

Lemma delivery_iff_passes_witness :
  sendToLoggers_body (Sample.record ERROR) EmptyString Sample.console
  = [LogWrite 1 "query"].
Proof.
  apply (proj1 (proj1 (delivery_iff_passes (Sample.record ERROR) Sample.console))).
  left. vm_compute. discriminate.
Defined.

(** C2. The loop body looks the record up under its function identity
    first, then its method identity, then its package identity, and only
    then falls back on the entry's default; the first key present decides
    alone, also when the record does not pass its threshold. *)
Theorem resolution_priority (rec : LogRecord.t) (cLog : ConfigLogger.t) :
  let G := ConfigLogger.Granulars cLog in
  let body := sendToLoggers_body rec EmptyString cLog in
  (forall g, G !! LogRecord.FuncPath rec = Some g ->
     body = fst (sendToLogger rec g EmptyString cLog)) /\
  (forall g, G !! LogRecord.FuncPath rec = None ->
     G !! LogRecord.MethodPath rec = Some g ->
     body = fst (sendToLogger rec g EmptyString cLog)) /\
  (forall g, G !! LogRecord.FuncPath rec = None ->
     G !! LogRecord.MethodPath rec = None ->
     G !! LogRecord.PackagePath rec = Some g ->
     body = fst (sendToLogger rec g EmptyString cLog)) /\
  (G !! LogRecord.FuncPath rec = None ->
     G !! LogRecord.MethodPath rec = None ->
     G !! LogRecord.PackagePath rec = None ->
     body = fst (sendToLogger rec (ConfigLogger.Level cLog) EmptyString cLog)) /\
  (forall g, (G !! LogRecord.FuncPath rec = Some g \/
              (G !! LogRecord.FuncPath rec = None /\
               G !! LogRecord.MethodPath rec = Some g) \/
              (G !! LogRecord.FuncPath rec = None /\
               G !! LogRecord.MethodPath rec = None /\
               G !! LogRecord.PackagePath rec = Some g)) ->
     ~ passes rec g -> body = []) /\
  body = fst (sendToLogger rec (effectiveThreshold cLog rec) EmptyString cLog).
Proof.
  intros G body. unfold body, sendToLoggers_body. fold G.
  split; [|split; [|split; [|split; [|split]]]].
  - intros g ->. reflexivity.
  - intros g -> ->. reflexivity.
  - intros g -> -> ->. reflexivity.
  - intros -> -> ->. reflexivity.
  - intros g [H | [[H1 H2] | (H1 & H2 & H3)]] Hp.
    + rewrite H. now rewrite sendToLogger_fails.
    + rewrite H1, H2. now rewrite sendToLogger_fails.
    + rewrite H1, H2, H3. now rewrite sendToLogger_fails.
  - apply body_resolves.
Qed.

Lemma resolution_priority_witness :
  sendToLoggers_body (Sample.record INFO) EmptyString Sample.file = [] /\
  sendToLoggers_body (Sample.record CRITICAL) EmptyString Sample.file
  = [LogWrite 2 "app/db.(*Conn).Query"].
Proof.
  pose proof (resolution_priority (Sample.record INFO) Sample.file) as H1.
  pose proof (resolution_priority (Sample.record CRITICAL) Sample.file) as H2.
  cbv zeta in H1, H2. split.
  - apply (proj1 (proj2 (proj2 (proj2 (proj2 H1)))) ERROR).
    + left. vm_compute. reflexivity.
    + unfold passes. vm_compute. intros [H | H]; [now apply H | discriminate H].
  - rewrite (proj1 H2 ERROR); [reflexivity | vm_compute; reflexivity].
Defined.

(** ** Record submission *)

(** The full sample queue arises from three hundred submissions to a
    fresh logger with one destination. *)
Lemma full_is_reachable :
  run NewTimber (OpAdd Sample.console
                 :: repeat (OpLog (Sample.record INFO)) 300)
  = Returns (Sample.full, [0]).
Proof. vm_compute. reflexivity. Qed.

(** C3, as stated, fails: with the gate open and three hundred records
    queued, a submission does not return; the caller is parked on the
    channel send. *)
Lemma full_queue_submission_blocks :
  blackHole Sample.full = false /\
  length (recordChan Sample.full) = recordChan_cap /\
  doPrepareAndSend Sample.full (Sample.record INFO) = Blocks /\
  ~ (exists t', doPrepareAndSend Sample.full (Sample.record INFO) = Returns t').
Proof.
  assert (E : doPrepareAndSend Sample.full (Sample.record INFO) = Blocks)
    by (vm_compute; reflexivity).
  repeat split; try (vm_compute; reflexivity); try exact E.
  intros [t' H]. rewrite E in H. discriminate H.
Qed.

(** C3, amended. While the gate is open: a submission to a queue with
    room appends the record and returns; a submission to a full queue
    blocks, with nothing dropped; and as soon as the running actor takes
    one record off a full queue the same submission goes through and the
    record is queued. *)
Theorem submission_blocks_when_full (t : Timber) (rec : LogRecord.t) :
  blackHole t = false ->
  ((length (recordChan t) < recordChan_cap)%nat ->
     doPrepareAndSend t rec
     = Returns (set_recordChan (recordChan t ++ [rec]) t)) /\
  ((recordChan_cap <= length (recordChan t))%nat ->
     doPrepareAndSend t rec = Blocks) /\
  (length (recordChan t) = recordChan_cap -> actor t = Looping ->
     exists t1,
       selectRecord t = Returns t1 /\
       doPrepareAndSend t1 rec
       = Returns (set_recordChan (recordChan t1 ++ [rec]) t1)).
Proof.
  intros Hgate. unfold doPrepareAndSend. rewrite Hgate.
  split; [|split].
  - intros H. apply Nat.ltb_lt in H. now rewrite H.
  - intros H. apply Nat.ltb_ge in H. now rewrite H.
  - intros Hfull Hrun. unfold selectRecord. rewrite Hrun.
    destruct (recordChan t) as [|r q] eqn:Hq; [discriminate Hfull|].
    eexists. split; [reflexivity|]. unfold doPrepareAndSend.
    cbn [blackHole emit set_recordChan recordChan]. rewrite Hgate.
    simpl in Hfull. unfold recordChan_cap in *.
    assert (Hlt : (length q <? 300)%nat = true) by (apply Nat.ltb_lt; lia).
    now rewrite Hlt.
Qed.

Lemma submission_blocks_when_full_witness :
  doPrepareAndSend Sample.full (Sample.record ERROR) = Blocks.
Proof.
  apply (submission_blocks_when_full Sample.full (Sample.record ERROR)).
  - reflexivity.
  - apply Nat.leb_le. vm_compute. reflexivity.
Defined.

(** C4. Once the gate is set, a submission returns at once and leaves
    the whole state as it was: nothing is queued. The actor's handling of
    a quit request sets the gate and ends the actor, and from then on no
    schedule of calls changes the state at all, so no destination gets
    anything more. *)
Theorem submission_after_gate (t : Timber) (rec : LogRecord.t) :
  blackHole t = true ->
  doPrepareAndSend t rec = Returns t /\
  (actor t = Exited -> forall ops, run t ops = Returns (t, [])) /\
  (forall t0 cfg r,
     Action cfg = actionQuit -> selectConfig t0 cfg = Returns (t, r) ->
     actor t = Exited /\ recordChan t = []).
Proof.
  intros Hgate. split; [|split].
  - unfold doPrepareAndSend. now rewrite Hgate.
  - intros Hexit ops. induction ops as [|o ops IH]; [reflexivity|].
    cbn [run].
    assert (Hstep : step t o = Returns (t, None) \/ step t o = Blocks).
    { destruct o; cbn [step].
      - left. unfold doPrepareAndSend. now rewrite Hgate.
      - right. unfold selectRecord. now rewrite Hexit.
      - right. unfold AddLogger, selectConfig. now rewrite Hexit.
      - right. unfold SetLogger, selectConfig. now rewrite Hexit.
      - unfold Close, selectConfig. rewrite Hexit.
        destruct (closeLatch t); [now left | now right]. }
    destruct Hstep as [-> | ->]; [now rewrite IH | exact IH].
  - intros t0 cfg r Hq H. unfold selectConfig in H. rewrite Hq in H.
    destruct (actor t0); [|discriminate H].
    injection H as H _. subst t. split; reflexivity.
Qed.

Lemma submission_after_gate_witness :
  exists t, Close Sample.busy = Returns t /\
            doPrepareAndSend t (Sample.record CRITICAL) = Returns t.
Proof.
  eexists. split; [vm_compute; reflexivity|].
  refine (proj1 (submission_after_gate _ (Sample.record CRITICAL) _)).
  reflexivity.
Defined.

(** ** Shutdown *)

Section Shutdown.

Implicit Types (t : Timber) (ls : list ConfigLogger.t).

(** The drain loop delivers the queued records oldest first. *)
Lemma drain_fifo ls (q : list LogRecord.t) :
  drain ls q = flat_map (sendToLoggers ls) q.
Proof. induction q as [|rec q IH]; simpl; [reflexivity | now rewrite IH]. Qed.

Lemma closeAllWriters_lookup ls (i : nat) (c : ConfigLogger.t) :
  ls !! i = Some c ->
  closeAllWriters ls !! i = Some (WriterClose (ConfigLogger.LogWriter c)).
Proof.
  intros H. unfold closeAllWriters.
  change (map ?f ls) with (f <$> ls). now rewrite list_lookup_fmap, H.
Qed.

Lemma Close_latched t : closeLatch t = true -> Close t = Returns t.
Proof. intros H. unfold Close. now rewrite H. Qed.

End Shutdown.

(** C5. A first [Close] on a running logger returns, and the state it
    returns in shows what the actor did, in this order: every queued
    record fanned out, oldest first, against the registry as it stood;
    then one close per registry entry, in index order; then the
    acknowledgement on the request's channel, last of all. The queue is
    then empty and the actor has exited. *)
Theorem Close_drains_then_closes (t : Timber) :
  actor t = Looping -> closeLatch t = false ->
  Close t =
    Returns {| recordChan := [];
               closeLatch := true;
               blackHole := true;
               loggers := loggers t;
               actor := Exited;
               out := ((out t ++ flat_map (sendToLoggers (loggers t)) (recordChan t))
                       ++ closeAllWriters (loggers t)) ++ [RetSend 0] |} /\
  length (closeAllWriters (loggers t)) = length (loggers t) /\
  (forall (i : nat) (c : ConfigLogger.t),
     loggers t !! i = Some c ->
     closeAllWriters (loggers t) !! i
     = Some (WriterClose (ConfigLogger.LogWriter c))).
Proof.
  intros Hrun Hlatch. split; [|split].
  - unfold Close, selectConfig. rewrite Hlatch.
    cbn [actor set_blackHole Action]. rewrite Hrun.
    unfold afterLoop, reply, set_closeLatch, emit, set_actor, set_recordChan.
    cbn. now rewrite drain_fifo.
  - unfold closeAllWriters. apply length_map.
  - apply closeAllWriters_lookup.
Qed.

Lemma Close_drains_then_closes_witness :
  exists t,
    Close Sample.busy = Returns t /\
    out t = [LogWrite 1 "query"; LogWrite 2 "app/db.(*Conn).Query";
             WriterClose 1; WriterClose 2; RetSend 0].
Proof.
  eexists. split.
  - apply (Close_drains_then_closes Sample.busy); reflexivity.
  - vm_compute. reflexivity.
Defined.

(** C6. A [Close] that comes after a [Close] has returned gives back
    the state untouched, whatever the number of repetitions: no panic,
    no drain, no destination closed again. *)
Theorem Close_again_is_noop (t t' : Timber) :
  Close t = Returns t' ->
  Close t' = Returns t' /\
  forall n : nat, run t' (repeat OpClose n) = Returns (t', []).
Proof.
  intros H.
  assert (Hl : closeLatch t' = true).
  { unfold Close in H. destruct (closeLatch t) eqn:E.
    - injection H as <-. exact E.
    - destruct (selectConfig t _) as [[t1 [v|]]| |]; try discriminate H.
      injection H as <-. reflexivity. }
  pose proof (Close_latched t' Hl) as Hc.
  split; [exact Hc|].
  induction n as [|n IH]; [reflexivity|].
  cbn [repeat run step]. now rewrite Hc, IH.
Qed.

Lemma Close_again_is_noop_witness :
  exists t, Close Sample.busy = Returns t /\ Close t = Returns t.
Proof.
  eexists. split; [vm_compute; reflexivity|].
  refine (proj1 (Close_again_is_noop Sample.busy _ _)).
  vm_compute. reflexivity.
Defined.

(** ** Registry *)

Section Registry.

Implicit Types (t : Timber) (ls : list ConfigLogger.t).

Lemma AddLogger_running t (logger : ConfigLogger.t) :
  actor t = Looping ->
  AddLogger t logger =
    Returns (emit [RetSend (Z.of_nat (length (loggers t)))]
                  (set_loggers (loggers t ++ [logger]) t),
             Z.of_nat (length (loggers t))).
Proof.
  intros H. unfold AddLogger, selectConfig, reply. rewrite H.
  cbn [Action Cfg]. rewrite length_app. cbn [length].
  replace (Z.of_nat (length (loggers t) + 1) - 1)
    with (Z.of_nat (length (loggers t))) by lia.
  reflexivity.
Qed.

(** Record traffic leaves the registry and the actor as they are. *)
Lemma doPrepareAndSend_registry t (rec : LogRecord.t) t' :
  doPrepareAndSend t rec = Returns t' ->
  loggers t' = loggers t /\ actor t' = actor t.
Proof.
  unfold doPrepareAndSend. intros H.
  destruct (blackHole t); [injection H as <-; now split|].
  destruct (length (recordChan t) <? recordChan_cap)%nat; [|discriminate H].
  injection H as <-. now split.
Qed.

Lemma selectRecord_registry t t' :
  selectRecord t = Returns t' ->
  loggers t' = loggers t /\ actor t' = actor t.
Proof.
  unfold selectRecord. intros H.
  destruct (actor t) eqn:Ha; [|discriminate H].
  destruct (recordChan t); [discriminate H|].
  injection H as <-. split; [reflexivity | exact Ha].
Qed.

Lemma loggers_at_in_range ls (i : Z) :
  is_Some (loggers_at ls i) <-> 0 <= i < Z.of_nat (length ls).
Proof.
  unfold loggers_at. destruct (Z.leb_spec 0 i) as [H|H].
  - rewrite lookup_lt_is_Some. lia.
  - split; [intros [x Hx]; discriminate Hx | lia].
Qed.

(** On a schedule of submissions, deliveries and [AddLogger] calls the
    run goes through, the actor keeps looping, and the calls get the
    consecutive indices that start at the registry's length. *)
Lemma run_traffic (ops : list op) :
  forall t,
    actor t = Looping -> forallb is_traffic_or_add ops = true ->
    exists t',
      run t ops
      = Returns (t', map Z.of_nat (seq (length (loggers t)) (count_adds ops))) /\
      actor t' = Looping /\
      length (loggers t') = (length (loggers t) + count_adds ops)%nat.
Proof.
  induction ops as [|o ops IH]; intros t Hrun Hops.
  - exists t. unfold count_adds. simpl. repeat split; [exact Hrun | lia].
  - simpl in Hops. apply andb_true_iff in Hops as [Ho Hops].
    destruct o as [rec| |logger| |]; try discriminate Ho; cbn [run step].
    + destruct (doPrepareAndSend t rec) as [t1| |] eqn:E.
      * destruct (doPrepareAndSend_registry _ _ _ E) as [Hl Ha].
        destruct (IH t1 ltac:(congruence) Hops) as (t' & -> & Ha' & Hl').
        exists t'. unfold count_adds in *. cbn [List.filter is_add].
        rewrite Hl in *. now repeat split.
      * destruct (IH t Hrun Hops) as (t' & -> & Ha' & Hl').
        exists t'. now repeat split.
      * unfold doPrepareAndSend in E. destruct (blackHole t); [discriminate E|].
        destruct (length (recordChan t) <? recordChan_cap)%nat; discriminate E.
    + destruct (selectRecord t) as [t1| |] eqn:E.
      * destruct (selectRecord_registry _ _ E) as [Hl Ha].
        destruct (IH t1 ltac:(congruence) Hops) as (t' & -> & Ha' & Hl').
        exists t'. unfold count_adds in *. cbn [List.filter is_add].
        rewrite Hl in *. now repeat split.
      * destruct (IH t Hrun Hops) as (t' & -> & Ha' & Hl').
        exists t'. now repeat split.
      * unfold selectRecord in E. destruct (actor t); [|discriminate E].
        destruct (recordChan t); discriminate E.
    + rewrite (AddLogger_running t logger Hrun).
      set (t1 := emit _ _).
      destruct (IH t1 Hrun Hops) as (t' & -> & Ha' & Hl').
      exists t'. unfold count_adds in *. cbn [List.filter is_add length seq map].
      subst t1. cbn [loggers emit set_loggers] in *.
      rewrite length_app in *. cbn [length] in *.
      replace (length (loggers t) + 1)%nat with (S (length (loggers t))) in * by lia.
      repeat split; [exact Ha' | lia].
Qed.

End Registry.

(** C7. On a running logger [AddLogger] appends the entry and returns
    the registry's length from before the append. Hence on a fresh
    logger, under any schedule that mixes [AddLogger] calls with record
    submissions and deliveries, the calls return 0, 1, 2, ... in order:
    the n-th returns n-1. *)
Theorem AddLogger_sequential_indices (ops : list op) :
  forallb is_traffic_or_add ops = true ->
  (exists t',
     run NewTimber ops = Returns (t', map Z.of_nat (seq 0 (count_adds ops))) /\
     length (loggers t') = count_adds ops) /\
  (forall (t : Timber) (logger : ConfigLogger.t),
     actor t = Looping ->
     exists t',
       AddLogger t logger = Returns (t', Z.of_nat (length (loggers t))) /\
       loggers t' = loggers t ++ [logger]).
Proof.
  intros Hops. split.
  - destruct (run_traffic ops NewTimber eq_refl Hops) as (t' & Hr & _ & Hl).
    exists t'. split; [exact Hr | exact Hl].
  - intros t logger Hrun. rewrite (AddLogger_running t logger Hrun).
    eexists. split; reflexivity.
Qed.

Lemma AddLogger_sequential_indices_witness :
  exists t',
    run NewTimber [OpAdd Sample.console; OpLog (Sample.record ERROR);
                   OpAdd Sample.file; OpDeliver; OpAdd Sample.console]
    = Returns (t', [0; 1; 2]) /\
    length (loggers t') = 3%nat.
Proof.
  exact (proj1 (AddLogger_sequential_indices
                  [OpAdd Sample.console; OpLog (Sample.record ERROR);
                   OpAdd Sample.file; OpDeliver; OpAdd Sample.console]
                  eq_refl)).
Defined.

(** C10. [SetLogger] hands its index to the actor unchecked, and the
    actor indexes the registry with it before anything else: on a running
    logger the call ends in a panic exactly when the index lies outside
    the registry; inside it, the old entry's destination is closed and the
    entry replaced. An index that [AddLogger] has returned is inside. *)
Theorem SetLogger_index_unchecked (t : Timber) (index : Z)
    (logger : ConfigLogger.t) :
  actor t = Looping ->
  (SetLogger t index logger = Panics <->
     index < 0 \/ Z.of_nat (length (loggers t)) <= index) /\
  (forall old : ConfigLogger.t,
     0 <= index -> loggers t !! Z.to_nat index = Some old ->
     SetLogger t index logger =
       Returns (set_loggers (<[Z.to_nat index := logger]> (loggers t))
                  (emit [WriterClose (ConfigLogger.LogWriter old)] t))) /\
  (forall (c : ConfigLogger.t) (t' : Timber) (i : Z),
     AddLogger t c = Returns (t', i) ->
     SetLogger t' i logger <> Panics /\ SetLogger t' (i + 1) logger = Panics).
Proof.
  intros Hrun.
  assert (Hiff : forall t0 j, actor t0 = Looping ->
            (SetLogger t0 j logger = Panics <->
             j < 0 \/ Z.of_nat (length (loggers t0)) <= j)).
  { intros t0 j H0. unfold SetLogger, selectConfig. rewrite H0.
    cbn [Action Index Cfg].
    pose proof (loggers_at_in_range (loggers t0) j) as Hr.
    destruct (loggers_at (loggers t0) j) as [old|].
    - split; [discriminate|]. intros H.
      assert (0 <= j < Z.of_nat (length (loggers t0))) by (apply Hr; eauto).
      lia.
    - split; [|reflexivity]. intros _.
      destruct (Z_lt_dec j 0) as [|Hj]; [now left|]. right.
      destruct (Z_le_dec (Z.of_nat (length (loggers t0))) j) as [|Hj']; [assumption|].
      exfalso. destruct (proj2 Hr ltac:(lia)) as [x Hx]. discriminate Hx. }
  split; [apply Hiff, Hrun | split].
  - intros old H0 Hold. unfold SetLogger, selectConfig, loggers_at. rewrite Hrun.
    cbn [Action Index Cfg]. rewrite (proj2 (Z.leb_le 0 index) H0), Hold.
    reflexivity.
  - intros c t' i H. rewrite (AddLogger_running t c Hrun) in H.
    injection H as <- <-.
    set (t' := emit _ _).
    assert (Hl : length (loggers t') = S (length (loggers t))).
    { subst t'. cbn [loggers emit set_loggers]. rewrite length_app. simpl. lia. }
    split.
    + intros H. apply (Hiff t' _ Hrun) in H. lia.
    + apply (Hiff t' _ Hrun). lia.
Qed.

Lemma SetLogger_index_unchecked_witness :
  SetLogger Sample.busy 2 Sample.console = Panics /\
  SetLogger Sample.busy (-1) Sample.console = Panics /\
  SetLogger Sample.busy 1 Sample.console
  = Returns (set_loggers [Sample.console; Sample.console]
               (emit [WriterClose 2] Sample.busy)).
Proof.
  split; [|split].
  - apply (SetLogger_index_unchecked Sample.busy 2 Sample.console eq_refl).
    right. vm_compute. discriminate.
  - apply (SetLogger_index_unchecked Sample.busy (-1) Sample.console eq_refl).
    left. reflexivity.
  - apply (proj1 (proj2 (SetLogger_index_unchecked
                            Sample.busy 1 Sample.console eq_refl))
                 Sample.file); [discriminate | reflexivity].
Defined.

(** ** Level names *)

Section LevelNames.

Implicit Types (s : string) (names : list string).

(** The lookup loop answers the position of the first match, counted
    from [idx], or zero when nothing matches. *)
Lemma GetLevel_from_first idx names s :
  ((s ∉ names) /\ GetLevel_from idx names s = 0) \/
  (exists i : nat,
     names !! i = Some s /\
     (forall j : nat, (j < i)%nat -> names !! j <> Some s) /\
     GetLevel_from idx names s = idx + Z.of_nat i).
Proof.
  revert idx. induction names as [|str rest IH]; intros idx.
  - left. split; [apply not_elem_of_nil | reflexivity].
  - cbn [GetLevel_from]. destruct (String.eqb_spec str s) as [->|Hne].
    + right. exists 0%nat. split; [reflexivity|]. split; [lia|].
      simpl. lia.
    + destruct (IH (idx + 1)) as [[Hno E] | (i & Hi & Hfirst & E)].
      * left. split; [|exact E]. rewrite not_elem_of_cons. split; congruence.
      * right. exists (S i). split; [exact Hi|]. split; [|lia].
        intros [|j] Hj; [simpl; congruence|]. simpl. apply Hfirst. lia.
Qed.

Lemma LongLevelStrings_NoDup : NoDup LongLevelStrings.
Proof. apply (bool_decide_unpack _). vm_compute. exact I. Qed.

End LevelNames.

(** X1. Name to level and back: the long name of level [L] is looked up
    as [L], for each of the nine levels. *)
Theorem GetLevel_of_long_name (L : nat) (name : string) :
  LongLevelStrings !! L = Some name -> GetLevel name = Z.of_nat L.
Proof.
  intros H. unfold GetLevel.
  destruct (GetLevel_from_first 0 LongLevelStrings name)
    as [[Hno _] | (i & Hi & _ & ->)].
  - exfalso. apply Hno. apply list_elem_of_lookup. now exists L.
  - rewrite (NoDup_lookup _ _ _ _ LongLevelStrings_NoDup Hi H). lia.
Qed.

Lemma GetLevel_of_long_name_witness : GetLevel "WARNING" = WARNING.
Proof. apply (GetLevel_of_long_name 6 "WARNING"). reflexivity. Defined.

(** X2. Every string is looked up as a level from [NONE] to
    [CRITICAL]; a result other than [NONE] means the string is exactly
    that level's long name; a string that is no long name (a lower-case
    spelling, a short code) is looked up as [NONE]. *)
Theorem GetLevel_range_and_default (s : string) :
  NONE <= GetLevel s <= CRITICAL /\
  (GetLevel s <> NONE -> LongLevelStrings !! Z.to_nat (GetLevel s) = Some s) /\
  (s ∉ LongLevelStrings -> GetLevel s = NONE) /\
  GetLevel "info" = NONE /\ GetLevel "WARN" = NONE.
Proof.
  assert (Hconst : GetLevel "info" = NONE /\ GetLevel "WARN" = NONE)
    by (split; reflexivity).
  unfold GetLevel, NONE, CRITICAL in *.
  destruct (GetLevel_from_first 0 LongLevelStrings s)
    as [[Hno ->] | (i & Hi & _ & ->)].
  - split; [lia|]. split; [intros H; now contradiction H|].
    split; [reflexivity | exact Hconst].
  - pose proof (lookup_lt_Some _ _ _ Hi) as Hlt. simpl in Hlt.
    split; [lia|]. split; [|split; [|exact Hconst]].
    + intros _. now rewrite Z.add_0_l, Nat2Z.id.
    + intros Hno. exfalso. apply Hno. apply list_elem_of_lookup. now exists i.
Qed.

(** ** What the parser returns *)

Section ParserShape.

Implicit Types (s pkg meth fn : string) (c : ascii).

(** A string splits at the last occurrence of a byte. *)
Lemma last_at_split c s p :
  last_at c s p ->
  exists b, s = String.substring 0 p s +:+ String c b /\ ~ has_byte c b.
Proof.
  revert p. induction s as [|h s IH]; intros p [Hget Hlast].
  - destruct p; discriminate Hget.
  - destruct p as [|p].
    + injection Hget as ->. exists s. split; [reflexivity|].
      intros [j Hj]. apply (Hlast (S j)); [lia | exact Hj].
    + destruct (IH p) as (b & Hb & Hno).
      { split; [exact Hget|]. intros j Hj. apply (Hlast (S j)). lia. }
      exists b. split; [|exact Hno].
      change (String h s = String h (String.substring 0 p s +:+ String c b)).
      f_equal. exact Hb.
Qed.

Lemma at_index_empty i : at_index EmptyString i = None.
Proof.
  unfold at_index. destruct ((0 <=? i) && (i <? len ""))%bool; [|reflexivity].
  now destruct (Z.to_nat i).
Qed.

End ParserShape.

(** X3. Whatever the parser returns is a split of its input at dots.
    Either the method path is empty, the package path ends in a byte
    other than a closing parenthesis and the input is the package path, a
    dot and a dot-free rest; or the method path ends in a closing
    parenthesis, it is the package path, a dot and a dot-free rest, and
    the input is the method path, a dot and a dot-free rest. *)
Theorem parseFuncName_shape (s pkg meth : string) :
  parseFuncName s = Some (pkg, meth) ->
  (meth = EmptyString /\
   (exists c, at_index pkg (len pkg - 1) = Some c /\ c <> ")"%char) /\
   exists fn, s = pkg +:+ "." +:+ fn /\ ~ has_byte "." fn) \/
  (at_index meth (len meth - 1) = Some ")"%char /\
   exists r fn,
     meth = pkg +:+ "." +:+ r /\ s = meth +:+ "." +:+ fn /\
     ~ has_byte "." r /\ ~ has_byte "." fn).
Proof.
  intros H.
  destruct (LastIndex_byte "." s) as [[E _] | (p & E & Hp)].
  { unfold parseFuncName in H. rewrite E in H. discriminate H. }
  destruct (last_at_split _ _ _ Hp) as (fn & Hs & Hfn).
  set (pre := String.substring 0 p s) in *.
  rewrite Hs, (parseFuncName_step pre fn Hfn) in H.
  destruct (at_index pre (len pre - 1)) as [c|] eqn:Hc; [|discriminate H].
  cbn [mbind option_bind] in H.
  destruct (Ascii.eqb_spec c ")") as [->|Hne].
  - destruct (LastIndex_byte "." pre) as [[E' _] | (q & E' & Hq)];
      rewrite E' in H; [discriminate H|].
    destruct (last_at_split _ _ _ Hq) as (r & Hpre & Hr).
    rewrite slice_to_in_range in H
      by (pose proof (get_lt_length _ _ _ (proj1 Hq)); lia).
    cbn [mbind option_bind] in H. injection H as <- <-.
    right. split; [exact Hc|]. exists r, fn. now repeat split.
  - injection H as <- <-. left. split; [reflexivity|].
    split; [now exists c|]. now exists fn.
Qed.

Lemma parseFuncName_shape_witness :
  exists r fn : string,
    "app/db.(*Conn)"%string = "app/db" +:+ "." +:+ r /\
    "app/db.(*Conn).Query"%string = "app/db.(*Conn)" +:+ "." +:+ fn.
Proof.
  destruct (parseFuncName_shape "app/db.(*Conn).Query" "app/db" "app/db.(*Conn)"
              eq_refl) as [[H _] | (_ & r & fn & H1 & H2 & _)].
  - discriminate H.
  - now exists r, fn.
Defined.

(** ** Building a record *)

Section Prepare.

Implicit Types (rt : Runtime) (t : Timber) (msg : string).

Lemma parseFuncName_plain (q : string) (c : ascii) (fn : string) :
  ~ has_byte "." fn -> c <> ")"%char ->
  parseFuncName ((q +:+ String c EmptyString) +:+ String "." fn)
  = Some (q +:+ String c EmptyString, EmptyString).
Proof.
  intros Hfn Hc. rewrite (parseFuncName_step _ fn Hfn), at_index_snoc.
  cbn [mbind option_bind].
  destruct (Ascii.eqb_spec c ")"); [contradiction | reflexivity].
Qed.


End Prepare.

(** X4. A call from a plain function [pkg.fn] ([fn] without a dot,
    [pkg] ending in a byte other than a closing parenthesis) is recorded
    with that name as function identity, [pkg] as package identity and
    the empty string as method identity. For such a record an entry's
    threshold is therefore its override for [pkg.fn], else its override
    for the empty string, else its override for [pkg], else its
    default. *)
Theorem prepare_plain_call_site (rt : Runtime) (Hostname : option string)
    (lvl : Level) (extra : gmap string string) (msg : string) (depth : Z)
    (file : string) (line : Z) (q : string) (c : ascii) (fn : string) :
  let pkg := q +:+ String c EmptyString in
  let name := pkg +:+ String "." fn in
  Caller rt depth = (file, line, Some name) ->
  ~ has_byte "." fn -> c <> ")"%char ->
  exists rec,
    prepare rt Hostname lvl extra msg depth = Some rec /\
    LogRecord.Level rec = lvl /\ LogRecord.Message rec = msg /\
    LogRecord.FuncPath rec = name /\
    LogRecord.PackagePath rec = pkg /\
    LogRecord.MethodPath rec = EmptyString /\
    forall cLog : ConfigLogger.t,
      let G := ConfigLogger.Granulars cLog in
      sendToLoggers_body rec EmptyString cLog =
      fst (sendToLogger rec
             (default (default (default (ConfigLogger.Level cLog) (G !! pkg))
                               (G !! EmptyString))
                      (G !! name))
             EmptyString cLog).
Proof.
  intros pkg name Hc Hfn Hne. unfold prepare. rewrite Hc.
  unfold name, pkg. rewrite (parseFuncName_plain q c fn Hfn Hne).
  cbn [mbind option_bind fst snd]. eexists. split; [reflexivity|].
  do 5 (split; [reflexivity|]). intros cLog. cbv zeta.
  unfold sendToLoggers_body.
  cbn [LogRecord.FuncPath LogRecord.MethodPath LogRecord.PackagePath].
  destruct (ConfigLogger.Granulars cLog
              !! ((q +:+ String c EmptyString) +:+ String "." fn));
    [reflexivity|].
  destruct (ConfigLogger.Granulars cLog !! EmptyString); [reflexivity|].
  destruct (ConfigLogger.Granulars cLog !! (q +:+ String c EmptyString));
    reflexivity.
Qed.


(** X6. When the runtime cannot name the calling function the three
    identities are the placeholder ["_"] and no parsing happens. When it
    names it without any dot, building the record panics: a log call on
    an open logger panics in the caller, while on a closed logger the
    same call returns, because the record is never built. *)
Theorem prepare_unresolved_or_panics (rt : Runtime)
    (Hostname : option string) (lvl : Level) (extra : gmap string string)
    (msg : string) (depth : Z) (file : string) (line : Z) :
  (Caller rt depth = (file, line, None) ->
   exists rec,
     prepare rt Hostname lvl extra msg depth = Some rec /\
     LogRecord.FuncPath rec = "_"%string /\
     LogRecord.MethodPath rec = "_"%string /\
     LogRecord.PackagePath rec = "_"%string /\
     LogRecord.Level rec = lvl /\ LogRecord.Message rec = msg) /\
  (forall name : string,
     Caller rt (depth + 2) = (file, line, Some name) ->
     ~ has_byte "." name ->
     forall t : Timber,
       (blackHole t = false ->
        doPrepareAndSend_args rt Hostname t lvl extra msg depth = Panics) /\
       (blackHole t = true ->
        doPrepareAndSend_args rt Hostname t lvl extra msg depth = Returns t)).
Proof.
  split.
  - intros Hc. unfold prepare. rewrite Hc. cbn [mbind option_bind].
    eexists. split; [reflexivity|]. now repeat split.
  - intros name Hc Hno t. unfold doPrepareAndSend_args, prepare. rewrite Hc.
    assert (E : parseFuncName name = None).
    { unfold parseFuncName. now rewrite (LastIndex_absent "." name Hno). }
    rewrite E. cbn [mbind option_bind].
    split; intros ->; reflexivity.
Qed.

Lemma prepare_plain_call_site_witness :
  exists rec,
    prepare SampleRuntime.rt None INFO ∅ "up" 6 = Some rec /\
    LogRecord.PackagePath rec = "main"%string /\
    LogRecord.MethodPath rec = EmptyString.
Proof.
  destruct (prepare_plain_call_site SampleRuntime.rt None INFO ∅ "up" 6
              "main.go" 10 "mai" "n" "main" eq_refl)
    as (rec & H & _ & _ & _ & Hp & Hm & _).
  - intros [i Hi]. do 5 (destruct i as [|i]; [discriminate Hi|]).
    discriminate Hi.
  - discriminate.
  - exists rec. split; [exact H|]. split; [exact Hp | exact Hm].
Defined.


Lemma prepare_unresolved_or_panics_witness :
  doPrepareAndSend_args SampleRuntime.rt None NewTimber INFO ∅ "m" 5 = Panics /\
  doPrepareAndSend_args SampleRuntime.rt None SampleRuntime.closed_busy
                        INFO ∅ "m" 5
  = Returns SampleRuntime.closed_busy.
Proof.
  assert (Hno : ~ has_byte "." "nodot").
  { intros [i Hi]. do 6 (destruct i as [|i]; [discriminate Hi|]).
    discriminate Hi. }
  split.
  - apply (proj2 (prepare_unresolved_or_panics SampleRuntime.rt None INFO ∅
                    "m" 5 "asm.s" 1) "nodot" eq_refl Hno NewTimber).
    reflexivity.
  - apply (proj2 (prepare_unresolved_or_panics SampleRuntime.rt None INFO ∅
                    "m" 5 "asm.s" 1) "nodot" eq_refl Hno
                 SampleRuntime.closed_busy).
    reflexivity.
Defined.

(** ** Fan-out: order and multiplicity *)

Section FanOutOrder.

Implicit Types (rec : LogRecord.t) (cLog : ConfigLogger.t)
               (ls : list ConfigLogger.t).

Lemma body_at_most_one rec cLog :
  sendToLoggers_body rec EmptyString cLog = [delivery cLog rec] \/
  sendToLoggers_body rec EmptyString cLog = [].
Proof.
  destruct (passes_dec rec (effectiveThreshold cLog rec)) as [H|H].
  - left. now apply body_passes.
  - right. now apply body_fails.
Qed.

Lemma effectiveThreshold_paths cLog rec rec' :
  LogRecord.FuncPath rec = LogRecord.FuncPath rec' ->
  LogRecord.MethodPath rec = LogRecord.MethodPath rec' ->
  LogRecord.PackagePath rec = LogRecord.PackagePath rec' ->
  effectiveThreshold cLog rec = effectiveThreshold cLog rec'.
Proof. unfold effectiveThreshold. now intros -> -> ->. Qed.

Lemma closed_app (es1 es2 : list event) :
  closed (es1 ++ es2) = closed es1 ++ closed es2.
Proof. apply omap_app. Qed.


Lemma closed_sendToLoggers ls rec : closed (sendToLoggers ls rec) = [].
Proof.
  induction ls as [|cLog ls IH]; [reflexivity|].
  rewrite sendToLoggers_cons, closed_app, IH.
  destruct (body_at_most_one rec cLog) as [-> | ->]; reflexivity.
Qed.

End FanOutOrder.

(** X7. One fan-out pass hands a record to each destination at most
    once and in registry order: its output is a sublist of the list of
    the entries' deliveries, so it is never longer than the registry. *)
Theorem sendToLoggers_once_in_order (ls : list ConfigLogger.t)
    (rec : LogRecord.t) :
  sublist (sendToLoggers ls rec) (map (fun c => delivery c rec) ls) /\
  (length (sendToLoggers ls rec) <= length ls)%nat /\
  closed (sendToLoggers ls rec) = [].
Proof.
  assert (Hsub : sublist (sendToLoggers ls rec)
                         (map (fun c => delivery c rec) ls)).
  { induction ls as [|cLog ls IH]; [constructor|].
    rewrite sendToLoggers_cons. cbn [map].
    destruct (body_at_most_one rec cLog) as [-> | ->]; cbn [app].
    - now apply sublist_skip.
    - now apply sublist_cons. }
  split; [exact Hsub|]. split.
  - apply sublist_length in Hsub. now rewrite length_map in Hsub.
  - apply closed_sendToLoggers.
Qed.

(** X8. Raising a record's level never loses a destination: if an
    entry is handed a record, it is also handed any record from the same
    call site at the same or a higher level; so a pass over a registry
    writes at least as many messages for the higher level. *)
Theorem delivery_monotone_in_level (rec rec' : LogRecord.t) :
  LogRecord.FuncPath rec = LogRecord.FuncPath rec' ->
  LogRecord.MethodPath rec = LogRecord.MethodPath rec' ->
  LogRecord.PackagePath rec = LogRecord.PackagePath rec' ->
  LogRecord.Level rec <= LogRecord.Level rec' ->
  (forall cLog : ConfigLogger.t,
     sendToLoggers_body rec EmptyString cLog = [delivery cLog rec] ->
     sendToLoggers_body rec' EmptyString cLog = [delivery cLog rec']) /\
  (forall ls : list ConfigLogger.t,
     (length (sendToLoggers ls rec) <= length (sendToLoggers ls rec'))%nat).
Proof.
  intros HF HM HP Hle.
  assert (Hmono : forall cLog,
            sendToLoggers_body rec EmptyString cLog = [delivery cLog rec] ->
            sendToLoggers_body rec' EmptyString cLog = [delivery cLog rec']).
  { intros cLog H.
    destruct (passes_dec rec (effectiveThreshold cLog rec)) as [Hp|Hp].
    - apply body_passes.
      rewrite <- (effectiveThreshold_paths cLog rec rec' HF HM HP).
      unfold passes in *. lia.
    - rewrite body_fails in H by exact Hp. discriminate H. }
  split; [exact Hmono|].
  induction ls as [|cLog ls IH]; [reflexivity|].
  rewrite !sendToLoggers_cons, !length_app.
  destruct (body_at_most_one rec cLog) as [E | E].
  - rewrite (Hmono cLog E), E. simpl. lia.
  - rewrite E. simpl. lia.
Qed.

Lemma delivery_monotone_in_level_witness :
  sendToLoggers_body (Sample.record CRITICAL) EmptyString Sample.console
  = [delivery Sample.console (Sample.record CRITICAL)].
Proof.
  apply (proj1 (delivery_monotone_in_level (Sample.record WARNING)
                  (Sample.record CRITICAL) eq_refl eq_refl eq_refl
                  ltac:(discriminate))).
  reflexivity.
Defined.

(** ** Schedules: what a step can do *)

Section Steps.

Implicit Types (t : Timber) (o : op).

Lemma Close_running t :
  actor t = Looping -> closeLatch t = false -> Close t = Returns (closed_state t).
Proof.
  intros Hrun Hlatch. unfold Close, selectConfig. rewrite Hlatch.
  cbn [actor set_blackHole Action]. rewrite Hrun.
  unfold afterLoop, reply, set_closeLatch, emit, set_actor, set_recordChan.
  cbn. now rewrite drain_fifo.
Qed.

Lemma doPrepareAndSend_cases t rec t' :
  doPrepareAndSend t rec = Returns t' ->
  (blackHole t = true /\ t' = t) \/
  (blackHole t = false /\ (length (recordChan t) < recordChan_cap)%nat /\
   t' = set_recordChan (recordChan t ++ [rec]) t).
Proof.
  unfold doPrepareAndSend. intros H.
  destruct (blackHole t); [left; injection H as <-; now split|].
  destruct (Nat.ltb_spec (length (recordChan t)) recordChan_cap) as [Hlt|];
    [|discriminate H].
  right. injection H as <-. now repeat split.
Qed.

Lemma selectRecord_cases t t' :
  selectRecord t = Returns t' ->
  actor t = Looping /\
  exists rec q, recordChan t = rec :: q /\
                t' = emit (sendToLoggers (loggers t) rec) (set_recordChan q t).
Proof.
  unfold selectRecord. intros H.
  destruct (actor t); [|discriminate H].
  destruct (recordChan t) as [|rec q]; [discriminate H|].
  injection H as <-. split; [reflexivity|]. now exists rec, q.
Qed.

Lemma AddLogger_cases t c t' i :
  AddLogger t c = Returns (t', i) ->
  actor t = Looping /\ i = Z.of_nat (length (loggers t)) /\
  t' = emit [RetSend i] (set_loggers (loggers t ++ [c]) t).
Proof.
  intros H. destruct (actor t) eqn:Hrun.
  - rewrite (AddLogger_running t c Hrun) in H. injection H as <- <-.
    now repeat split.
  - unfold AddLogger, selectConfig in H. rewrite Hrun in H. discriminate H.
Qed.

Lemma SetLogger_cases t i c t' :
  SetLogger t i c = Returns t' ->
  actor t = Looping /\ 0 <= i /\
  exists old, loggers t !! Z.to_nat i = Some old /\
    t' = set_loggers (<[Z.to_nat i := c]> (loggers t))
           (emit [WriterClose (ConfigLogger.LogWriter old)] t).
Proof.
  unfold SetLogger, selectConfig, loggers_at. intros H.
  destruct (actor t); [|discriminate H]. cbn [Action Index Cfg] in H.
  destruct (Z.leb_spec 0 i) as [Hi|]; [|discriminate H].
  destruct (loggers t !! Z.to_nat i) as [old|] eqn:Hold; [|discriminate H].
  injection H as <-. split; [reflexivity|]. split; [exact Hi|]. now exists old.
Qed.

Lemma Close_cases t t' :
  Close t = Returns t' ->
  (closeLatch t = true /\ t' = t) \/
  (closeLatch t = false /\ actor t = Looping /\ t' = closed_state t).
Proof.
  intros H. destruct (closeLatch t) eqn:Hl.
  - left. rewrite (Close_latched t Hl) in H. injection H as <-. now split.
  - right. destruct (actor t) eqn:Hrun.
    + rewrite (Close_running t Hrun Hl) in H. injection H as <-. now repeat split.
    + unfold Close, selectConfig in H. rewrite Hl, Hrun in H. discriminate H.
Qed.


End Steps.

(** ** Invariants of a logger *)

Section Invariants.

Implicit Types (t : Timber) (o : op).

Lemma step_returns t o t' r :
  step t o = Returns (t', r) ->
  match o with
  | OpLog rec => doPrepareAndSend t rec = Returns t'
  | OpDeliver => selectRecord t = Returns t'
  | OpAdd c => exists i, AddLogger t c = Returns (t', i) /\ r = Some i
  | OpSet i c => SetLogger t i c = Returns t'
  | OpClose => Close t = Returns t'
  end.
Proof.
  destruct o as [rec| |c|i c|]; cbn [step]; intros H.
  - destruct (doPrepareAndSend t rec); try discriminate H. now injection H as <- _.
  - destruct (selectRecord t); try discriminate H. now injection H as <- _.
  - destruct (AddLogger t c) as [[t1 i]| |]; try discriminate H.
    injection H as <- <-. now exists i.
  - destruct (SetLogger t i c); try discriminate H. now injection H as <- _.
  - destruct (Close t); try discriminate H. now injection H as <- _.
Qed.



End Invariants.



(** ** Drain completeness *)

(** X10. Records are neither lost, duplicated nor reordered. Take a
    running, open logger and any schedule of submissions and actor
    deliveries that fits the queue (queued plus submitted records at most
    300), then [Close]: the call returns, and what the destinations got
    after the start is exactly the fan-out of the queued records followed
    by the submitted ones, each once, in submission order, against the
    registry; then every entry's close; then the acknowledgement. *)
Theorem queued_records_all_delivered (ops : list op) :
  forall t : Timber,
    actor t = Looping -> closeLatch t = false -> blackHole t = false ->
    forallb is_traffic ops = true ->
    (length (recordChan t) + length (logged ops) <= recordChan_cap)%nat ->
    exists t',
      run t (ops ++ [OpClose]) = Returns (t', []) /\
      out t' =
        ((out t ++ flat_map (sendToLoggers (loggers t))
                            (recordChan t ++ logged ops))
         ++ closeAllWriters (loggers t)) ++ [RetSend 0] /\
      recordChan t' = [] /\ actor t' = Exited.
Proof.
  induction ops as [|o ops IH]; intros t Hrun Hlatch Hgate Hops Hfit.
  - exists (closed_state t). cbn [app run step].
    rewrite (Close_running t Hrun Hlatch). cbn [logged omap].
    rewrite app_nil_r. now repeat split.
  - cbn [forallb] in Hops. apply andb_true_iff in Hops as [Ho Hops].
    destruct o as [rec| | | |]; try discriminate Ho;
      rewrite <- app_comm_cons; cbn [run step].
    + assert (E : doPrepareAndSend t rec
                  = Returns (set_recordChan (recordChan t ++ [rec]) t)).
      { unfold doPrepareAndSend. rewrite Hgate.
        change (logged (OpLog rec :: ops)) with (rec :: logged ops) in Hfit.
        cbn [length] in Hfit.
        destruct (Nat.ltb_spec (length (recordChan t)) recordChan_cap);
          [reflexivity | lia]. }
      rewrite E.
      destruct (IH (set_recordChan (recordChan t ++ [rec]) t))
        as (t' & -> & Hout & Hq & Hex); try assumption.
      { cbn [recordChan set_recordChan]. rewrite length_app. cbn [length].
        change (logged (OpLog rec :: ops)) with (rec :: logged ops) in Hfit.
        cbn [length] in Hfit. lia. }
      exists t'. split; [reflexivity|]. split; [|now split].
      rewrite Hout. cbn [out loggers recordChan set_recordChan].
      change (logged (OpLog rec :: ops)) with (rec :: logged ops).
      now rewrite <- (app_assoc (recordChan t) [rec] (logged ops)).
    + change (logged (OpDeliver :: ops)) with (logged ops) in *.
      unfold selectRecord. rewrite Hrun.
      destruct (recordChan t) as [|rec q] eqn:Hq0.
      * destruct (IH t Hrun Hlatch Hgate Hops) as (t' & -> & Hout & Hq & Hex).
        { rewrite Hq0. exact Hfit. }
        exists t'. rewrite Hq0 in Hout. now repeat split.
      * destruct (IH (emit (sendToLoggers (loggers t) rec) (set_recordChan q t)))
          as (t' & -> & Hout & Hq & Hex); try assumption.
        { cbn [recordChan set_recordChan emit]. cbn [length] in Hfit. lia. }
        exists t'. split; [reflexivity|]. split; [|now split].
        rewrite Hout. cbn [out loggers recordChan set_recordChan emit].
        cbn [app flat_map]. now rewrite <- !app_assoc.
Qed.

Lemma queued_records_all_delivered_witness :
  exists t',
    run Sample.busy [OpDeliver; OpLog (Sample.record CRITICAL); OpClose]
    = Returns (t', []) /\
    writes (out t')
    = [(1%nat, "query"); (2%nat, "app/db.(*Conn).Query");
       (1%nat, "query"); (2%nat, "app/db.(*Conn).Query")]%string.
Proof.
  destruct (queued_records_all_delivered
              [OpDeliver; OpLog (Sample.record CRITICAL)] Sample.busy
              eq_refl eq_refl eq_refl eq_refl)
    as (t' & Hr & Hout & _).
  - apply Nat.leb_le. vm_compute. reflexivity.
  - exists t'. split; [exact Hr|]. rewrite Hout. vm_compute. reflexivity.
Defined.

(** ** The registry over time *)

Section RegistryOverTime.

Implicit Types (t : Timber) (o : op).

Lemma SetLogger_panics_iff t (i : Z) (c : ConfigLogger.t) :
  actor t = Looping ->
  (SetLogger t i c = Panics <-> i < 0 \/ Z.of_nat (length (loggers t)) <= i).
Proof.
  intros Hrun. unfold SetLogger, selectConfig. rewrite Hrun.
  cbn [Action Index Cfg].
  pose proof (loggers_at_in_range (loggers t) i) as Hr.
  destruct (loggers_at (loggers t) i) as [old|].
  - split; [discriminate|]. intros H.
    assert (0 <= i < Z.of_nat (length (loggers t))) by (apply Hr; eauto).
    lia.
  - split; [|reflexivity]. intros _.
    destruct (Z_lt_dec i 0) as [|Hi]; [now left|]. right.
    destruct (Z_le_dec (Z.of_nat (length (loggers t))) i) as [|Hi']; [assumption|].
    exfalso. destruct (proj2 Hr ltac:(lia)) as [x Hx]. discriminate Hx.
Qed.

Lemma step_registry_grows t o t' r :
  step t o = Returns (t', r) ->
  (length (loggers t) <= length (loggers t'))%nat /\
  (forall i, r = Some i ->
     Z.of_nat (length (loggers t)) <= i < Z.of_nat (length (loggers t'))).
Proof.
  intros H. pose proof (step_returns _ _ _ _ H) as Hs.
  destruct o as [rec| |c|i c|].
  - assert (r = None) as ->.
    { cbn [step] in H. destruct (doPrepareAndSend t rec); try discriminate H.
      now injection H as _ <-. }
    apply doPrepareAndSend_cases in Hs as [[_ ->] | (_ & _ & ->)];
      (split; [reflexivity | discriminate]).
  - assert (r = None) as ->.
    { cbn [step] in H. destruct (selectRecord t); try discriminate H.
      now injection H as _ <-. }
    apply selectRecord_cases in Hs as (_ & rec & q & _ & ->).
    split; [reflexivity | discriminate].
  - destruct Hs as (i & Hs & ->).
    apply AddLogger_cases in Hs as (_ & -> & ->).
    cbn [loggers emit set_loggers]. rewrite length_app. cbn [length].
    split; [lia|]. intros i [= <-]. lia.
  - assert (r = None) as ->.
    { cbn [step] in H. destruct (SetLogger t i c); try discriminate H.
      now injection H as _ <-. }
    apply SetLogger_cases in Hs as (_ & _ & old & _ & ->).
    cbn [loggers emit set_loggers]. rewrite length_insert.
    split; [reflexivity | discriminate].
  - assert (r = None) as ->.
    { cbn [step] in H. destruct (Close t); try discriminate H.
      now injection H as _ <-. }
    apply Close_cases in Hs as [[_ ->] | (_ & _ & ->)];
      (split; [reflexivity | discriminate]).
Qed.

Lemma run_registry_grows (ops : list op) :
  forall t t' rets,
    run t ops = Returns (t', rets) ->
    (length (loggers t) <= length (loggers t'))%nat /\
    Forall (fun i => Z.of_nat (length (loggers t)) <= i
                     < Z.of_nat (length (loggers t'))) rets.
Proof.
  induction ops as [|o ops IH]; intros t t' rets H.
  - injection H as <- <-. split; [reflexivity | constructor].
  - cbn [run] in H. destruct (step t o) as [[t1 r]| |] eqn:E.
    + destruct (run t1 ops) as [[t2 rs]| |] eqn:E2; try discriminate H.
      injection H as <- <-.
      destruct (step_registry_grows _ _ _ _ E) as [Hle Hr].
      destruct (IH _ _ _ E2) as [Hle' Hrs].
      split; [lia|].
      assert (Hrs' : Forall (fun i => Z.of_nat (length (loggers t)) <= i
                                      < Z.of_nat (length (loggers t2))) rs).
      { eapply Forall_impl; [exact Hrs|]. cbn beta. intros i Hi. lia. }
      destruct r as [i|]; [|exact Hrs'].
      constructor; [|exact Hrs']. specialize (Hr i eq_refl). lia.
    + exact (IH _ _ _ H).
    + discriminate H.
Qed.

End RegistryOverTime.

(** X11. After [Close] has returned, the actor is gone: every later
    [AddLogger] or [SetLogger] call parks its caller on the configuration
    channel and never returns, whatever the index, and no record is taken
    off the queue any more. *)
Theorem config_calls_block_after_Close (t t' : Timber) :
  consistent t -> Close t = Returns t' ->
  forall (c : ConfigLogger.t) (i : Z),
    AddLogger t' c = Blocks /\ SetLogger t' i c = Blocks /\
    selectRecord t' = Blocks.
Proof.
  intros (_ & _ & Hlatch & _) H c i.
  assert (Hex : actor t' = Exited).
  { apply Close_cases in H as [[Hl ->] | (_ & _ & ->)];
      [now apply Hlatch | reflexivity]. }
  unfold AddLogger, SetLogger, selectConfig, selectRecord. now rewrite Hex.
Qed.

Lemma config_calls_block_after_Close_witness :
  AddLogger SampleRuntime.closed_busy Sample.file = Blocks /\
  SetLogger SampleRuntime.closed_busy 0 Sample.file = Blocks /\
  selectRecord SampleRuntime.closed_busy = Blocks.
Proof.
  apply (config_calls_block_after_Close Sample.busy SampleRuntime.closed_busy).
  - unfold consistent. cbn.
    repeat split; try discriminate. unfold recordChan_cap. lia.
  - reflexivity.
Defined.



(** X13. The registry never shrinks, and an index handed out by
    [AddLogger] stays inside it: after any schedule that returns, every
    index returned during it lies within the final registry, so while the
    actor runs a [SetLogger] with it does not panic. *)
Theorem returned_indices_stay_valid (ops : list op) (t t' : Timber)
    (rets : list Z) :
  run t ops = Returns (t', rets) ->
  (length (loggers t) <= length (loggers t'))%nat /\
  Forall (fun i => 0 <= i < Z.of_nat (length (loggers t'))) rets /\
  (actor t' = Looping ->
   forall (i : Z) (c : ConfigLogger.t),
     i ∈ rets -> SetLogger t' i c <> Panics).
Proof.
  intros H. destruct (run_registry_grows ops t t' rets H) as [Hle Hall].
  split; [exact Hle|].
  assert (Hall' : Forall (fun i => 0 <= i < Z.of_nat (length (loggers t'))) rets).
  { eapply Forall_impl; [exact Hall|]. cbn beta. intros i Hi. lia. }
  split; [exact Hall'|].
  intros Hrun i c Hi Hp.
  apply (SetLogger_panics_iff t' i c Hrun) in Hp.
  rewrite Forall_forall in Hall'. specialize (Hall' i Hi). lia.
Qed.

Lemma returned_indices_stay_valid_witness :
  SetLogger (set_loggers [Sample.console; Sample.file]
               (emit [RetSend 0; RetSend 1] NewTimber)) 1 Sample.console
  <> Panics.
Proof.
  refine (proj2 (proj2 (returned_indices_stay_valid
            [OpAdd Sample.console; OpAdd Sample.file] NewTimber
            (set_loggers [Sample.console; Sample.file]
               (emit [RetSend 0; RetSend 1] NewTimber)) [0; 1] eq_refl))
          eq_refl 1 Sample.console _).
  apply list_elem_of_In. right. left. reflexivity.
Defined.

(** ** Destinations are closed once *)

Section CloseAccounting.

Implicit Types (t : Timber) (ls : list ConfigLogger.t).

Lemma insert_swap_Permutation {A : Type} (l : list A) (n : nat) (x old : A) :
  l !! n = Some old -> old :: <[n:=x]> l ≡ₚ x :: l.
Proof.
  revert n. induction l as [|a l IH]; intros n H; [destruct n; discriminate H|].
  destruct n as [|n]; cbn in *.
  - injection H as ->. apply Permutation_swap.
  - rewrite Permutation_swap, (IH n H). apply Permutation_swap.
Qed.

Lemma closed_flat_map ls (q : list LogRecord.t) :
  closed (flat_map (sendToLoggers ls) q) = [].
Proof.
  induction q as [|rec q IH]; [reflexivity|].
  cbn [flat_map]. now rewrite closed_app, closed_sendToLoggers, IH.
Qed.

Lemma closed_closeAllWriters ls :
  closed (closeAllWriters ls) = map ConfigLogger.LogWriter ls.
Proof. induction ls as [|c ls IH]; [reflexivity|]. cbn. now rewrite <- IH. Qed.

Lemma closed_closed_state t :
  closed (out (closed_state t))
  = closed (out t) ++ map ConfigLogger.LogWriter (loggers t).
Proof.
  unfold closed_state. cbn [out].
  rewrite !closed_app, closed_flat_map, closed_closeAllWriters.
  cbn. now rewrite !app_nil_r.
Qed.

Lemma closed_accounting (ops : list op) :
  forall t t' rets,
    actor t = Looping -> closeLatch t = false ->
    forallb (fun o => negb (is_close o)) ops = true ->
    run t (ops ++ [OpClose]) = Returns (t', rets) ->
    closed (out t') ≡ₚ
      closed (out t) ++ map ConfigLogger.LogWriter (loggers t) ++ installed ops.
Proof.
  induction ops as [|o ops IH]; intros t t' rets Hrun Hlatch Hops H.
  - cbn [app run step] in H. rewrite (Close_running t Hrun Hlatch) in H.
    injection H as <- _. rewrite closed_closed_state. cbn.
    now rewrite app_nil_r.
  - cbn [forallb] in Hops. apply andb_true_iff in Hops as [Ho Hops].
    rewrite <- app_comm_cons in H. cbn [run] in H.
    destruct (step t o) as [[t1 r]| |] eqn:E; [| |discriminate H].
    + destruct (run t1 (ops ++ [OpClose])) as [[t2 rs]| |] eqn:E2;
        try discriminate H.
      injection H as <- _. apply step_returns in E.
      assert (Hstep : actor t1 = Looping /\ closeLatch t1 = false /\
                closed (out t1) ++ map ConfigLogger.LogWriter (loggers t1)
                  ++ installed ops
                ≡ₚ closed (out t) ++ map ConfigLogger.LogWriter (loggers t)
                  ++ installed (o :: ops)).
      { destruct o as [rec| |c|i c|]; [| | | |discriminate Ho].
        - apply doPrepareAndSend_cases in E as [[_ ->] | (_ & _ & ->)];
            now repeat split.
        - apply selectRecord_cases in E as (_ & rec & q & _ & ->).
          split; [exact Hrun|]. split; [exact Hlatch|].
          cbn [out loggers emit set_recordChan].
          now rewrite closed_app, closed_sendToLoggers, app_nil_r.
        - destruct E as (i & E & _).
          apply AddLogger_cases in E as (_ & _ & ->).
          split; [exact Hrun|]. split; [exact Hlatch|].
          cbn [out loggers emit set_loggers].
          rewrite closed_app, map_app. cbn. rewrite app_nil_r.
          now rewrite <- app_assoc.
        - apply SetLogger_cases in E as (_ & _ & old & Hold & ->).
          split; [exact Hrun|]. split; [exact Hlatch|].
          cbn [out loggers emit set_loggers].
          rewrite closed_app. cbn [closed omap].
          change (installed (OpSet i c :: ops))
            with (ConfigLogger.LogWriter c :: installed ops).
          rewrite <- app_assoc. apply Permutation_app_head.
          change (closed [WriterClose (ConfigLogger.LogWriter old)])
            with [ConfigLogger.LogWriter old].
          cbn [app].
          change (map ConfigLogger.LogWriter ?l)
            with (ConfigLogger.LogWriter <$> l).
          rewrite list_fmap_insert, app_comm_cons.
          rewrite (insert_swap_Permutation _ (Z.to_nat i) _
                     (ConfigLogger.LogWriter old))
            by (now rewrite list_lookup_fmap, Hold).
          cbn [app]. apply Permutation_middle. }
      destruct Hstep as (Hrun1 & Hlatch1 & Hperm).
      rewrite (IH t1 t2 rs Hrun1 Hlatch1 Hops E2). exact Hperm.
    + destruct o as [rec| |c|i c|]; [| | | |discriminate Ho].
      * exact (IH _ _ _ Hrun Hlatch Hops H).
      * exact (IH _ _ _ Hrun Hlatch Hops H).
      * cbn [step] in E. rewrite (AddLogger_running t c Hrun) in E.
        discriminate E.
      * cbn [step] in E. unfold SetLogger, selectConfig in E.
        rewrite Hrun in E. cbn [Action] in E.
        destruct (loggers_at _ _); discriminate E.
Qed.

End CloseAccounting.

(** X14. No destination is leaked or closed twice as an entry. Start a
    fresh logger, run any schedule without [Close] and then [Close]: if
    the run returns, the destinations closed during it are, up to order,
    exactly the destinations installed by its [AddLogger] and [SetLogger]
    calls, each as many times as it was installed. *)
Theorem every_destination_closed_once (ops : list op) (t' : Timber)
    (rets : list Z) :
  forallb (fun o => negb (is_close o)) ops = true ->
  run NewTimber (ops ++ [OpClose]) = Returns (t', rets) ->
  closed (out t') ≡ₚ installed ops.
Proof.
  intros Hops H.
  exact (closed_accounting ops NewTimber t' rets eq_refl eq_refl Hops H).
Qed.

Lemma every_destination_closed_once_witness :
  exists t',
    final (run NewTimber [OpAdd Sample.console; OpAdd Sample.file;
                          OpSet 0 Sample.file; OpClose]) = Some t' /\
    closed (out t') ≡ₚ [1%nat; 2%nat; 2%nat].
Proof.
  eexists. split; [vm_compute; reflexivity|].
  apply (every_destination_closed_once
           [OpAdd Sample.console; OpAdd Sample.file; OpSet 0 Sample.file]
           _ [0; 1] eq_refl).
  vm_compute. reflexivity.
Defined.

(** ** A logger without destinations *)

Section NoDestination.

Implicit Types (t : Timber).



End NoDestination.



(** ** Facade *)

Section Facade.

Lemma prepare_level_message (rt : Runtime) (Hostname : option string)
    (lvl : Level) (extra : gmap string string) (msg : string) (depth : Z)
    (rec : LogRecord.t) :
  prepare rt Hostname lvl extra msg depth = Some rec ->
  LogRecord.Level rec = lvl /\ LogRecord.Message rec = msg /\
  LogRecord.Extra rec = extra.
Proof.
  unfold prepare. destruct (Caller rt depth) as [[file line] me].
  destruct me as [name|]; cbn [mbind option_bind].
  - destruct (parseFuncName name) as [[pkg meth]|]; cbn [option_bind];
      [|discriminate]. intros [= <-]. now repeat split.
  - intros [= <-]. now repeat split.
Qed.

End Facade.

(** X16. [Fatal] flushes before it closes. On a running, open logger
    with room in its queue, a fatal call whose record can be built
    returns from [Close] with the actor gone and this output: every
    queued record's fan-out, then the fatal record's, then the entries'
    closes, then the acknowledgement. The fatal record carries level
    [CRITICAL] and the message, and every entry whose threshold it passes
    has been handed it. *)
Theorem Fatal_flushes_before_closing (rt : Runtime)
    (Hostname : option string) (FileDepth : Z) (t : Timber) (msg : string)
    (rec : LogRecord.t) :
  actor t = Looping -> closeLatch t = false -> blackHole t = false ->
  (length (recordChan t) < recordChan_cap)%nat ->
  prepare rt Hostname CRITICAL ∅ msg (FileDepth + 2) = Some rec ->
  exists t',
    Fatal rt Hostname FileDepth t msg = Returns t' /\
    out t' =
      ((out t ++ flat_map (sendToLoggers (loggers t)) (recordChan t ++ [rec]))
       ++ closeAllWriters (loggers t)) ++ [RetSend 0] /\
    actor t' = Exited /\
    LogRecord.Level rec = CRITICAL /\ LogRecord.Message rec = msg /\
    (forall cLog : ConfigLogger.t,
       cLog ∈ loggers t -> passes rec (effectiveThreshold cLog rec) ->
       delivery cLog rec ∈ out t').
Proof.
  intros Hrun Hlatch Hgate Hroom Hprep.
  set (t1 := set_recordChan (recordChan t ++ [rec]) t).
  assert (E : prepareAndSend rt Hostname t CRITICAL msg FileDepth = Returns t1).
  { unfold prepareAndSend, doPrepareAndSend_args. rewrite Hgate, Hprep.
    unfold doPrepareAndSend. rewrite Hgate.
    apply Nat.ltb_lt in Hroom. now rewrite Hroom. }
  exists (closed_state t1). unfold Fatal. rewrite E.
  split; [exact (Close_running t1 Hrun Hlatch)|].
  split; [reflexivity|]. split; [reflexivity|].
  destruct (prepare_level_message _ _ _ _ _ _ _ Hprep) as (Hl & Hm & _).
  split; [exact Hl|]. split; [exact Hm|].
  intros cLog Hin Hp. unfold closed_state, t1.
  cbn [out loggers recordChan set_recordChan].
  rewrite !elem_of_app. left. left. right.
  rewrite flat_map_app, elem_of_app. right. cbn [flat_map].
  rewrite app_nil_r. apply elem_of_sendToLoggers. now exists cLog.
Qed.

Lemma Fatal_flushes_before_closing_witness :
  exists t',
    Fatal SampleRuntime.rt None 3 Sample.busy "down" = Returns t' /\
    actor t' = Exited.
Proof.
  destruct (Fatal_flushes_before_closing SampleRuntime.rt None 3
              Sample.busy "down"
              {| LogRecord.Level := CRITICAL;
                 LogRecord.Timestamp := 1700000000000000;
                 LogRecord.SourceFile := "db/conn.go";
                 LogRecord.SourceLine := 42;
                 LogRecord.Message := "down";
                 LogRecord.FuncPath := "app/db.(*Conn).Query";
                 LogRecord.MethodPath := "app/db.(*Conn)";
                 LogRecord.PackagePath := "app/db";
                 LogRecord.HostName := EmptyString;
                 LogRecord.Extra := ∅ |}
              eq_refl eq_refl eq_refl)
    as (t' & H & _ & Hex & _).
  - apply Nat.ltb_lt. vm_compute. reflexivity.
  - vm_compute. reflexivity.
  - exists t'. split; [exact H | exact Hex].
Defined.

(** X17. After [Close] has returned, the facade is inert and safe: a
    log call at any level returns at once with the state unchanged, the
    warning, error and critical calls still hand back their message as
    the error text, and a fatal call finds nothing left to close; none of
    them panics, whatever the runtime says about the call site. *)
Theorem facade_after_Close (rt : Runtime) (Hostname : option string)
    (FileDepth : Z) (t0 t : Timber) (lvl : Level) (msg : string) :
  consistent t0 -> Close t0 = Returns t ->
  Log rt Hostname FileDepth t lvl msg = Returns t /\
  Warn rt Hostname FileDepth t msg = Returns (t, msg) /\
  Error rt Hostname FileDepth t msg = Returns (t, msg) /\
  Critical rt Hostname FileDepth t msg = Returns (t, msg) /\
  Fatal rt Hostname FileDepth t msg = Returns t.
Proof.
  intros (_ & Hgate & Hlatch & _) H.
  assert (Hst : blackHole t = true /\ closeLatch t = true).
  { apply Close_cases in H as [[Hl ->] | (_ & _ & ->)].
    - split; [|exact Hl]. apply Hgate. now apply Hlatch.
    - now split. }
  destruct Hst as [Hb Hl].
  assert (E : forall l, prepareAndSend rt Hostname t l msg FileDepth = Returns t).
  { intros l. unfold prepareAndSend, doPrepareAndSend_args. now rewrite Hb. }
  unfold Log, Warn, Error, Critical, LogErr, Fatal. rewrite !E.
  repeat split. exact (Close_latched t Hl).
Qed.

Lemma facade_after_Close_witness :
  Warn SampleRuntime.rt None 5 SampleRuntime.closed_busy "late"
  = Returns (SampleRuntime.closed_busy, "late"%string).
Proof.
  apply (facade_after_Close SampleRuntime.rt None 5 Sample.busy
           SampleRuntime.closed_busy INFO "late").
  - unfold consistent. cbn.
    repeat split; try discriminate. unfold recordChan_cap. lia.
  - reflexivity.
Defined.

(** ** Registry snapshot at delivery *)

(** X18. A record meets the registry as it stands when the actor takes
    the record off the queue, not as it stood at submission: a record
    submitted to a running logger with an empty queue, followed by an
    [AddLogger] and then a delivery, is fanned out over the registry that
    includes the new entry; followed instead by a [SetLogger] on an entry,
    it is fanned out over the registry with that entry replaced. *)
Theorem delivery_uses_registry_at_dequeue (t : Timber) (rec : LogRecord.t)
    (c : ConfigLogger.t) :
  actor t = Looping -> blackHole t = false -> recordChan t = [] ->
  (exists t',
     run t [OpLog rec; OpAdd c; OpDeliver]
     = Returns (t', [Z.of_nat (length (loggers t))]) /\
     out t' = (out t ++ [RetSend (Z.of_nat (length (loggers t)))])
              ++ sendToLoggers (loggers t ++ [c]) rec) /\
  (forall (i : nat) (old : ConfigLogger.t),
     loggers t !! i = Some old ->
     exists t',
       run t [OpLog rec; OpSet (Z.of_nat i) c; OpDeliver] = Returns (t', []) /\
       out t' = (out t ++ [WriterClose (ConfigLogger.LogWriter old)])
                ++ sendToLoggers (<[i := c]> (loggers t)) rec).
Proof.
  intros Hrun Hgate Hq.
  assert (E : doPrepareAndSend t rec = Returns (set_recordChan [rec] t)).
  { unfold doPrepareAndSend. rewrite Hgate, Hq. reflexivity. }
  split.
  - cbn [run step]. rewrite E.
    rewrite (AddLogger_running (set_recordChan [rec] t) c Hrun).
    unfold selectRecord. cbn [actor recordChan emit set_loggers set_recordChan].
    rewrite Hrun. eexists. split; reflexivity.
  - intros i old Hold. cbn [run step]. rewrite E.
    unfold SetLogger, selectConfig, loggers_at.
    cbn [actor loggers set_recordChan Action Index Cfg]. rewrite Hrun.
    rewrite (proj2 (Z.leb_le 0 (Z.of_nat i))) by lia.
    rewrite Nat2Z.id, Hold.
    unfold selectRecord. cbn [actor recordChan emit set_loggers set_recordChan].
    rewrite Hrun. eexists. split; reflexivity.
Qed.

Lemma delivery_uses_registry_at_dequeue_witness :
  exists t',
    run NewTimber [OpLog (Sample.record ERROR); OpAdd Sample.console; OpDeliver]
    = Returns (t', [0]) /\
    writes (out t') = [(1%nat, "query"%string)].
Proof.
  destruct (proj1 (delivery_uses_registry_at_dequeue NewTimber
                     (Sample.record ERROR) Sample.console
                     eq_refl eq_refl eq_refl))
    as (t' & Hr & Hout).
  exists t'. split; [exact Hr|]. rewrite Hout. vm_compute. reflexivity.
Defined.


